(** * Task dispatcher: the run registry of [src/dispatcher.ts]

    A shallow embedding of the [Dispatcher] class and of the part of the
    Node.js platform it talks to (the [Map] holding the runs, the
    [ChildProcess] objects returned by [execFile], the clock), followed by
    the invariants of the registry and the properties of [start],
    [getStatus], [cancel] and of the completion callback.

    Conventions of the embedding:
    - a [Date] is the number of milliseconds that [getTime] returns, in [Z];
      every [new Date()] of the source reads the clock, which is an input
      [now] of the operation that performs it;
    - the counter [nextId] is a natural number ([N]); [toString] on it is
      the decimal rendering [pretty]. A JavaScript number is exact on the
      integers below 2^53, and the counter moves by one for a call of
      [start], so that it stays far below that;
    - an optional property is an [option]; a value whose TypeScript type is
      erased at run time ([TestResult], the caught exception) is a
      [JsValue], tested with JavaScript's truthiness;
    - [ChildProcess] objects live in a store ([processes]) and a run refers
      to its process by its address there, because the object is shared
      between the run record and the platform;
    - an operation returns a [Completion]: a normal value or a thrown
      exception, next to the state it leaves behind. *)

From stdpp Require Import gmap strings list fin_maps pretty relations sorting.
From Stdlib Require Import ZArith.

Local Open Scope Z_scope.

(** ** JavaScript values and truthiness *)

#[local] Set Warnings "-register-all".
Inductive JsValue : Type :=
| JsUndefined
| JsNull
| JsBoolean (b : bool)
| JsNumber (n : Z)
| JsString (s : string)
| JsObject (props : list (string * JsValue))
| JsError (message : string).

#[local] Set Warnings "+register-all".

(** [ToBoolean]: what [if (v)] tests. Numbers are the integers, so that
    [0] is the falsy number. *)
Definition truthy (v : JsValue) : bool :=
  match v with
  | JsUndefined | JsNull => false
  | JsBoolean b => b
  | JsNumber n => negb (n =? 0)
  | JsString EmptyString => false
  | JsString (String _ _) => true
  | JsObject _ | JsError _ => true
  end.

(** [if (o.f)] on an optional property [f]. *)
Definition is_set (f : option JsValue) : bool :=
  match f with
  | Some v => truthy v
  | None => false
  end.

(** [!s] is true exactly for the empty string. *)
Definition nonempty (s : string) : bool :=
  match s with
  | EmptyString => false
  | String _ _ => true
  end.

(** ** Completions: a value, or a thrown exception *)

Inductive Completion (E A : Type) : Type :=
| Normal (a : A)
| Throw (e : E).
Arguments Normal {E A} a.
Arguments Throw {E A} e.

(** [NotFound] is the class the source declares; [TypeError] is what the
    runtime raises when a property of [undefined] is read or written, and
    what Node.js raises on an argument it refuses; [Thrown] is any other
    value that a collaborator throws. *)
Inductive Exception : Type :=
| NotFound (message : string)
| TypeError (message : string)
| Thrown (v : JsValue).

Global Instance Completion_bind {E} : MBind (Completion E) :=
  λ A B k c,
    match c with
    | Normal a => k a
    | Throw e => Throw e
    end.

(** [o!.f]: reading through a non-null assertion. *)
Definition non_null {A} (o : option A) (what : string) : Completion Exception A :=
  match o with
  | Some a => Normal a
  | None => Throw (TypeError what)
  end.

(** ** The suite catalog ([TestModule], declared in [./test]) *)

Record Command : Type := { command : string; args : list string }.

Record TestModule : Type := {
  has : string → bool;
  (** [makeRunCommand] returns a command or throws. *)
  makeRunCommand : string → Completion Exception Command;
  (** [decodeResult] returns a value or throws one. *)
  decodeResult : string → Completion JsValue JsValue
}.

(** ** Child processes *)

(** The life of a [ChildProcess] made by [execFile]: running with an open
    handle; exited, the handle closed but the callback not yet called; and
    closed, the callback called. *)
Inductive Phase : Type := Running | Exited | Closed.

Global Instance Phase_eq_dec : EqDecision Phase.
Proof. solve_decision. Defined.

Record ChildProcess : Type := {
  spawnfile : string;
  spawnargs : list string;
  (** the [id] captured by the closure passed to [execFile] *)
  callback : string;
  killed : bool;
  phase : Phase
}.

(** ** Runs and the dispatcher *)

Record Run : Type := {
  process : nat;
  suite : string;
  started : Z;
  finished : option Z;
  result : option JsValue;
  error : option JsValue
}.

Record State : Type := {
  runList : gmap string Run;
  nextId : N;
  processes : list ChildProcess
}.

(** What [getStatus] returns. *)
Record Status : Type := {
  st_suite : string;
  st_status : string;
  st_runtime : Z;
  st_error : option JsValue;
  st_result : option JsValue
}.

Definition init : State :=
  {| runList := ∅; nextId := 1%N; processes := [] |}.

Definition set_finished (t : Z) (r : Run) : Run :=
  {| process := process r; suite := suite r; started := started r;
     finished := Some t; result := result r; error := error r |}.

Definition set_error (e : JsValue) (r : Run) : Run :=
  {| process := process r; suite := suite r; started := started r;
     finished := finished r; result := result r; error := Some e |}.

Definition set_result (v : JsValue) (r : Run) : Run :=
  {| process := process r; suite := suite r; started := started r;
     finished := finished r; result := Some v; error := error r |}.

Definition set_killed (p : ChildProcess) : ChildProcess :=
  {| spawnfile := spawnfile p; spawnargs := spawnargs p;
     callback := callback p; killed := true; phase := phase p |}.

Definition set_phase (ph : Phase) (p : ChildProcess) : ChildProcess :=
  {| spawnfile := spawnfile p; spawnargs := spawnargs p;
     callback := callback p; killed := killed p; phase := ph |}.

Definition with_runList (f : gmap string Run → gmap string Run) (s : State) : State :=
  {| runList := f (runList s); nextId := nextId s; processes := processes s |}.

Definition with_processes (f : list ChildProcess → list ChildProcess) (s : State) : State :=
  {| runList := runList s; nextId := nextId s; processes := f (processes s) |}.

(** [ChildProcess.prototype.kill]. In Node.js [killed] tells whether the
    process "successfully received a signal from [kill()]": the signal is
    sent, and [killed] set, only while the handle of the process is open;
    once the process has exited the handle is gone, and the call returns
    false and changes nothing. Sending the signal to a running process is
    taken to succeed. *)
Definition kill (p : nat) (s : State) : Completion Exception unit * State :=
  match processes s !! p with
  | None => (Throw (TypeError "kill"), s)
  | Some proc =>
      match phase proc with
      | Running => (Normal (), with_processes <[p := set_killed proc]> s)
      | _ => (Normal (), s)
      end
  end.

(** The process object that [execFile] makes for a command, with the
    identifier that its callback captured. *)
Definition spawned (cmd : Command) (id : string) : ChildProcess :=
  {| spawnfile := command cmd; spawnargs := args cmd;
     callback := id; killed := false; phase := Running |}.

(** The record that [start] registers. *)
Definition registered (name : string) (proc : nat) (now : Z) : Run :=
  {| process := proc; suite := name; started := now;
     finished := None; result := None; error := None |}.

(** [cp.execFile(command, args, callback)]. Node.js checks its arguments
    before it spawns anything, and throws a [TypeError] to the caller when
    the command is the empty string. Otherwise there is a new process
    object, running; the callback is kept with it and is called later, by
    the platform, also when the program cannot be launched. *)
Definition execFile (cmd : Command) (cb : string) (s : State)
  : Completion Exception nat * State :=
  if nonempty (command cmd)
  then (Normal (length (processes s)),
        with_processes (λ ps, ps ++ [spawned cmd cb]) s)
  else (Throw (TypeError "file"), s).

Section Dispatcher.

Variable module : TestModule.

(** [generateId]: [(this.nextId++).toString()]. *)
Definition generateId (s : State) : string * State :=
  (pretty (nextId s),
   {| runList := runList s; nextId := (nextId s + 1)%N; processes := processes s |}).

(** The callback passed to [execFile] in [start], with its captured [id]. *)
Definition onComplete (id : string) (err : JsValue) (stdout stderr : string)
    (now : Z) (s : State) : Completion Exception unit * State :=
  match runList s !! id with
  | None => (Throw (TypeError "finished"), s)
  | Some run =>
      let run := set_finished now run in
      if truthy err then
        (Normal (), with_runList <[id := set_error err run]> s)
      else if negb (nonempty stdout) && nonempty stderr then
        (Normal (), with_runList <[id := set_error (JsError stderr) run]> s)
      else
        match decodeResult module stdout with
        | Normal v => (Normal (), with_runList <[id := set_result v run]> s)
        | Throw e => (Normal (), with_runList <[id := set_error e run]> s)
        end
  end.

Definition start (name : string) (now : Z) (s : State)
  : Completion Exception string * State :=
  if has module name then
    let '(id, s) := generateId s in
    match makeRunCommand module name with
    | Throw e => (Throw e, s)
    | Normal cmd =>
        match execFile cmd id s with
        | (Throw e, s) => (Throw e, s)
        | (Normal proc, s) =>
            (Normal id, with_runList <[id := registered name proc now]> s)
        end
    end
  else (Throw (NotFound name), s).

Definition getStatus (id : string) (now : Z) (s : State) : Completion Exception Status :=
  match runList s !! id with
  | None => Throw (NotFound id)
  | Some run =>
      if is_set (error run) then
        proc ← non_null (processes s !! process run) "killed";
        fin ← non_null (finished run) "getTime";
        Normal {| st_suite := suite run;
                  st_status := if killed proc then "cancelled" else "error";
                  st_runtime := fin - started run;
                  st_error := error run;
                  st_result := None |}
      else if is_set (result run) then
        fin ← non_null (finished run) "getTime";
        Normal {| st_suite := suite run;
                  st_status := "completed";
                  st_runtime := fin - started run;
                  st_error := None;
                  st_result := result run |}
      else
        Normal {| st_suite := suite run;
                  st_status := "active";
                  st_runtime := now - started run;
                  st_error := None;
                  st_result := None |}
  end.

Definition cancel (id : string) (s : State) : Completion Exception unit * State :=
  match runList s !! id with
  | None => (Throw (NotFound id), s)
  | Some run => kill (process run) s
  end.

End Dispatcher.

(** ** The class [LocalRun]

    The source also declares this class, which no code uses. Its objects
    have the properties of a [Run]; its methods are embedded on that
    record. *)
Module LocalRun.

Definition make (name : string) (proc : nat) (now : Z) : Run :=
  {| process := proc; suite := name; started := now;
     finished := None; result := None; error := None |}.

Definition finish (now : Z) (r : Run) : Run := set_finished now r.

Definition complete (v : JsValue) (now : Z) (r : Run) : Run :=
  finish now (set_result v r).

Definition fail (e : JsValue) (now : Z) (r : Run) : Run :=
  finish now (set_error e r).

Definition cancel (r : Run) (s : State) : Completion Exception unit * State :=
  kill (process r) s.

Definition toStatus (r : Run) (s : State) : Completion Exception string :=
  match finished r with
  | None => Normal "active"
  | Some _ =>
      if is_set (result r) then Normal "completed"
      else
        proc ← non_null (processes s !! process r) "killed";
        Normal (if killed proc then "cancelled" else "error")
  end.

Definition toSuiteName (r : Run) : string := suite r.

Definition toRuntime (now : Z) (r : Run) : Z :=
  match finished r with
  | Some t => t - started r
  | None => now - started r
  end.

End LocalRun.

(** ** The dispatcher and the platform as a transition system *)

(** What can happen to a dispatcher: the three operations of its callers,
    and the two events of the platform on a child process. The platform
    calls the callback of a process once: [ProcessClose] is not enabled on
    a process that is [Closed]. *)
Inductive Event : Type :=
| Start (name : string) (now : Z)
| GetStatus (id : string) (now : Z)
| Cancel (id : string)
| ProcessExit (p : nat)
| ProcessClose (p : nat) (err : JsValue) (stdout stderr : string) (now : Z).

Inductive Response : Type :=
| Started (c : Completion Exception string)
| StatusIs (c : Completion Exception Status)
| CancelDone (c : Completion Exception unit)
| ProcessExited
| CallbackDone (c : Completion Exception unit).

Section System.

Variable module : TestModule.

(** One event; [None] when the platform cannot produce it in this state. *)
Definition perform (e : Event) (s : State) : option (Response * State) :=
  match e with
  | Start name now =>
      let '(c, s') := start module name now s in Some (Started c, s')
  | GetStatus id now => Some (StatusIs (getStatus id now s), s)
  | Cancel id =>
      let '(c, s') := cancel id s in Some (CancelDone c, s')
  | ProcessExit p =>
      match processes s !! p with
      | Some proc =>
          if decide (phase proc = Running)
          then Some (ProcessExited, with_processes <[p := set_phase Exited proc]> s)
          else None
      | None => None
      end
  | ProcessClose p err stdout stderr now =>
      match processes s !! p with
      | Some proc =>
          if decide (phase proc = Closed) then None
          else
            let s1 := with_processes <[p := set_phase Closed proc]> s in
            let '(c, s2) := onComplete module (callback proc) err stdout stderr now s1 in
            Some (CallbackDone c, s2)
      | None => None
      end
  end.

(** A sequence of events, with the responses it produces. *)
Fixpoint run_trace (tr : list Event) (s : State) : option (list Response * State) :=
  match tr with
  | [] => Some ([], s)
  | e :: tr =>
      match perform e s with
      | Some (r, s') =>
          match run_trace tr s' with
          | Some (rs, s'') => Some (r :: rs, s'')
          | None => None
          end
      | None => None
      end
  end.

Definition step (s s' : State) : Prop :=
  ∃ e r, perform e s = Some (r, s').

(** The states of a dispatcher that starts empty. *)
Definition reachable (s : State) : Prop := rtc step init s.

End System.

(** The identifiers that the [start] calls of a trace returned. *)
Fixpoint returned_ids (rs : list Response) : list string :=
  match rs with
  | [] => []
  | Started (Normal id) :: rs => id :: returned_ids rs
  | _ :: rs => returned_ids rs
  end.

(** ** The invariant of the registry *)

Record Inv (s : State) : Prop := {
  (** the counter starts from 1 and only grows *)
  inv_counter : (1 ≤ nextId s)%N;
  (** the keys are renderings of counter values already used *)
  inv_ids : ∀ id r, runList s !! id = Some r →
      ∃ n : N, id = pretty n ∧ (1 ≤ n < nextId s)%N;
  (** a run holds the process whose callback captured its identifier *)
  inv_process : ∀ id r, runList s !! id = Some r →
      ∃ p, processes s !! process r = Some p ∧ callback p = id;
  (** every process is the process of the run its callback names *)
  inv_owner : ∀ i p, processes s !! i = Some p →
      ∃ r, runList s !! callback p = Some r ∧ process r = i;
  (** [finished] is set exactly when the callback has been called *)
  inv_finished : ∀ id r p, runList s !! id = Some r →
      processes s !! process r = Some p →
      (finished r = None ↔ phase p ≠ Closed);
  (** no outcome before [finished] *)
  inv_outcome : ∀ id r, runList s !! id = Some r →
      finished r = None → result r = None ∧ error r = None;
  (** never both a result and an error *)
  inv_exclusive : ∀ id r, runList s !! id = Some r →
      result r = None ∨ error r = None
}.

(** ** Example catalogs *)

(** One suite, ["unit"], whose output is decoded to a fixed object. *)
Definition unit_module : TestModule :=
  {| has := λ name, bool_decide (name = "unit");
     makeRunCommand := λ name, Normal {| command := "run-tests"; args := [name] |};
     decodeResult := λ out,
       if nonempty out
       then Normal (JsObject [("passed", JsNumber 3); ("failed", JsNumber 0)])
       else Throw (JsError "Unexpected end of JSON input") |}.

(** A catalog whose decoder is [JSON.parse] on the outputs ["0"] and
    ["null"], and fails on anything else. *)
Definition json_module : TestModule :=
  {| has := λ name, bool_decide (name = "unit");
     makeRunCommand := λ name, Normal {| command := "run-tests"; args := [name] |};
     decodeResult := λ out,
       if bool_decide (out = "0") then Normal (JsNumber 0)
       else if bool_decide (out = "null") then Normal JsNull
       else Throw (JsError "Unexpected token") |}.

(** A catalog with a suite, ["blank"], whose command is the empty string,
    and whose decoder throws the number [0]. *)
Definition faulty_module : TestModule :=
  {| has := λ name, bool_decide (name = "unit") || bool_decide (name = "blank");
     makeRunCommand := λ name,
       if bool_decide (name = "blank")
       then Normal {| command := EmptyString; args := [] |}
       else Normal {| command := "run-tests"; args := [name] |};
     decodeResult := λ out, Throw (JsNumber 0) |}.

(** A run of ["unit"] that prints a report and exits. *)
Definition completed_trace : list Event :=
  [Start "unit" 0; ProcessClose 0 JsNull "ok" EmptyString 40].

(** A run of ["unit"] that fails with diagnostic output. *)
Definition failed_trace : list Event :=
  [Start "unit" 0; ProcessClose 0 (JsError "Command failed") EmptyString "boom" 40].

(** A run of ["unit"] whose whole output is [0]. *)
Definition zero_trace : list Event :=
  [Start "unit" 0; ProcessClose 0 JsNull "0" EmptyString 100].

(** ** Notions used in the statements *)

(** The state a trace leads to from the empty dispatcher (the empty
    dispatcher itself when the platform cannot produce the trace). *)
Definition after (module : TestModule) (tr : list Event) : State :=
  match run_trace module tr init with
  | Some (_, s) => s
  | None => init
  end.

(** The statuses in which a run stays. *)
Definition terminal (status : string) : Prop :=
  status = "completed" ∨ status = "error" ∨ status = "cancelled".

(** The outcome of a completion notification, by order of precedence:
    the pair of the [result] and the [error] it leaves in the record. *)
Definition chosen_outcome (module : TestModule) (err : JsValue)
    (stdout stderr : string) : option JsValue * option JsValue :=
  if truthy err then (None, Some err)
  else if negb (nonempty stdout) && nonempty stderr
       then (None, Some (JsError stderr))
  else match decodeResult module stdout with
       | Normal v => (Some v, None)
       | Throw e => (None, Some e)
       end.

(** The [start] calls of a trace whose suite the catalog knows. *)
Fixpoint known_starts (module : TestModule) (tr : list Event) : nat :=
  match tr with
  | [] => 0
  | Start name _ :: tr =>
      if has module name then S (known_starts module tr)
      else known_starts module tr
  | _ :: tr => known_starts module tr
  end.

(** Status and runtime read off the record by which properties have been
    assigned, whatever their values. *)
Definition status_by_assignment (was_killed : bool) (r : Run) : string :=
  match error r, result r with
  | Some _, _ => if was_killed then "cancelled" else "error"
  | None, Some _ => "completed"
  | None, None => "active"
  end.

Definition runtime_by_finished (now : Z) (r : Run) : Z :=
  match finished r with
  | Some t => t - started r
  | None => now - started r
  end.

Definition status_follows_assignment (module : TestModule) : Prop :=
  ∀ s id r proc now,
    reachable module s →
    runList s !! id = Some r →
    processes s !! process r = Some proc →
    ∃ st, getStatus id now s = Normal st
          ∧ st_status st = status_by_assignment (killed proc) r
          ∧ st_runtime st = runtime_by_finished now r.

(** No operation throws anything but a [NotFound]. *)
Definition only_NotFound_thrown (module : TestModule) : Prop :=
  ∀ s, reachable module s →
    (∀ name now e, (start module name now s).1 = Throw e → ∃ what, e = NotFound what)
    ∧ (∀ id now e, getStatus id now s = Throw e → ∃ what, e = NotFound what)
    ∧ (∀ id e, (cancel id s).1 = Throw e → ∃ what, e = NotFound what).

(** Every failure that a completion notification records is in the
    answers of [getStatus] from then on. *)
Definition failures_surfaced (module : TestModule) : Prop :=
  ∀ s p proc err stdout stderr now resp s' e,
    reachable module s →
    processes s !! p = Some proc →
    perform module (ProcessClose p err stdout stderr now) s = Some (resp, s') →
    (chosen_outcome module err stdout stderr).2 = Some e →
    ∀ now', ∃ st, getStatus (callback proc) now' s' = Normal st
                  ∧ st_error st = Some e.

(** Every [start] call moves the counter, whatever the call produces. *)
Definition counter_moves_on_every_start (module : TestModule) : Prop :=
  ∀ s name now, nextId (start module name now s).2 = (nextId s + 1)%N.

(** The run an event acts on: the run a [cancel] names, or the run whose
    identifier the callback of the process captured. [start] creates a run
    and [getStatus] only reads. *)
Definition target (e : Event) (s : State) : option string :=
  match e with
  | Start _ _ | GetStatus _ _ => None
  | Cancel id => Some id
  | ProcessExit p | ProcessClose p _ _ _ _ => callback <$> processes s !! p
  end.

(** ** The invariant holds in every reachable state *)

Lemma Inv_init : Inv init.
Proof.
  split; cbn; intros *; rewrite ?lookup_empty; done.
Qed.

Lemma Inv_fresh s : Inv s → runList s !! pretty (nextId s) = None.
Proof.
  intros HI. destruct (runList s !! pretty (nextId s)) as [r|] eqn:E; [|done].
  destruct (inv_ids s HI _ _ E) as (n & Hn & Hlt).
  apply (inj pretty) in Hn. lia.
Qed.

(** Replacing a process object and the record of its run by new versions
    that agree on the links between them keeps the invariant. *)
Lemma Inv_update s p proc proc' r r' :
  Inv s →
  processes s !! p = Some proc →
  runList s !! callback proc = Some r →
  callback proc' = callback proc →
  process r' = process r →
  (finished r' = None ↔ phase proc' ≠ Closed) →
  (finished r' = None → result r' = None ∧ error r' = None) →
  (result r' = None ∨ error r' = None) →
  Inv {| runList := <[callback proc := r']> (runList s);
         nextId := nextId s;
         processes := <[p := proc']> (processes s) |}.
Proof.
  intros HI Hp Hr Hcb Hpr Hfin Hout Hex.
  assert (Hown : process r = p).
  { destruct (inv_owner s HI _ _ Hp) as (r0 & Hr0 & Hp0). congruence. }
  assert (Hlt : (p < length (processes s))%nat) by (eapply lookup_lt_Some; eauto).
  assert (Hother : ∀ id r2, id ≠ callback proc → runList s !! id = Some r2 →
                            process r2 ≠ p).
  { intros id r2 Hne H2 Heq.
    destruct (inv_process s HI _ _ H2) as (p2 & Hp2 & Hcb2).
    rewrite Heq, Hp in Hp2. congruence. }
  split; cbn.
  - apply inv_counter; done.
  - intros id r2. rewrite lookup_insert. case_decide as Hid.
    + intros _. subst id. eapply inv_ids; eauto.
    + apply inv_ids; done.
  - intros id r2. rewrite lookup_insert. case_decide as Hid.
    + intros [= <-]. subst id. exists proc'. split; [|done].
      rewrite Hpr, Hown. by apply list_lookup_insert_eq.
    + intros H2. rewrite list_lookup_insert_ne by (symmetry; eauto).
      eapply inv_process; eauto.
  - intros i q. destruct (decide (i = p)) as [->|Hne].
    + rewrite list_lookup_insert_eq by done. intros [= <-].
      exists r'. rewrite Hcb, lookup_insert_eq. split; congruence.
    + rewrite list_lookup_insert_ne by done. intros Hq.
      destruct (inv_owner s HI _ _ Hq) as (r2 & H2 & Hp2).
      exists r2. split; [|done].
      rewrite lookup_insert_ne; [done|].
      intros Heq. rewrite <- Heq, Hr in H2. congruence.
  - intros id r2 q. rewrite lookup_insert. case_decide as Hid.
    + intros [= <-]. rewrite Hpr, Hown, list_lookup_insert_eq by done.
      intros [= <-]. done.
    + intros H2. rewrite list_lookup_insert_ne by (symmetry; eauto).
      eapply inv_finished; eauto.
  - intros id r2. rewrite lookup_insert. case_decide as Hid.
    + intros [= <-]. done.
    + eapply inv_outcome; eauto.
  - intros id r2. rewrite lookup_insert. case_decide as Hid.
    + intros [= <-]. done.
    + eapply inv_exclusive; eauto.
Qed.

(** The same, when only the process object changes. *)
Lemma Inv_update_process s p proc proc' :
  Inv s →
  processes s !! p = Some proc →
  callback proc' = callback proc →
  (phase proc' = Closed ↔ phase proc = Closed) →
  Inv (with_processes <[p := proc']> s).
Proof.
  intros HI Hp Hcb Hph.
  destruct (inv_owner s HI _ _ Hp) as (r & Hr & Hown).
  pose proof (Inv_update s p proc proc' r r HI Hp Hr Hcb eq_refl) as H.
  rewrite (insert_id _ _ _ Hr) in H. apply H.
  - rewrite (inv_finished s HI _ r proc Hr) by congruence.
    rewrite Hph. done.
  - eapply inv_outcome; eauto.
  - eapply inv_exclusive; eauto.
Qed.

Section Invariant.

Variable module : TestModule.

(** The three ways in which [start] ends: on an unknown suite; on a known
    suite whose command cannot be made or is refused, after the counter
    has moved; and with a new run. *)
Lemma start_cases name now s :
  (has module name = false
   ∧ start module name now s = (Throw (NotFound name), s))
  ∨ (has module name = true
     ∧ ∃ e, start module name now s = (Throw e, (generateId s).2)
            ∧ (makeRunCommand module name = Throw e
               ∨ ∃ cmd, makeRunCommand module name = Normal cmd
                        ∧ nonempty (command cmd) = false
                        ∧ e = TypeError "file"))
  ∨ (has module name = true
     ∧ ∃ cmd, makeRunCommand module name = Normal cmd
              ∧ nonempty (command cmd) = true
              ∧ start module name now s
                = (Normal (pretty (nextId s)),
                   {| runList := <[pretty (nextId s) :=
                                     registered name (length (processes s)) now]>
                                   (runList s);
                      nextId := (nextId s + 1)%N;
                      processes := processes s ++ [spawned cmd (pretty (nextId s))] |})).
Proof.
  unfold start, execFile. destruct (has module name); [|by left]. right. cbn.
  destruct (makeRunCommand module name) as [cmd|e] eqn:Hcmd.
  - destruct (nonempty (command cmd)) eqn:Hne; cbn.
    + right. split; [done|]. by exists cmd.
    + left. split; [done|]. eexists. split; [done|]. right. by exists cmd.
  - left. split; [done|]. exists e. split; [done|]. by left.
Qed.

Lemma generateId_Inv s : Inv s → Inv (generateId s).2.
Proof.
  intros HI. pose proof (inv_counter s HI). split; cbn.
  - lia.
  - intros id r Hr. destruct (inv_ids s HI _ _ Hr) as (n & ? & ?).
    exists n. split; [done|lia].
  - apply inv_process; done.
  - apply inv_owner; done.
  - apply inv_finished; done.
  - apply inv_outcome; done.
  - apply inv_exclusive; done.
Qed.

Lemma start_Inv name now s : Inv s → Inv (start module name now s).2.
Proof.
  intros HI.
  destruct (start_cases name now s)
    as [[_ ->]|[(_ & e & -> & _)|(_ & cmd & _ & _ & ->)]]; cbn [snd];
    [done|by apply generateId_Inv|].
  pose proof (Inv_fresh s HI) as Hfresh.
  pose proof (inv_counter s HI) as Hc.
  set (id := pretty (nextId s)) in *.
  set (proc := spawned cmd id).
  set (run := registered name (length (processes s)) now).
  assert (Hold : ∀ id' r, runList s !! id' = Some r → id' ≠ id).
  { intros id' r H ->. congruence. }
  split; cbn.
  - lia.
  - intros id' r. rewrite lookup_insert. case_decide as Hid.
    + intros _. exists (nextId s). split; [done|lia].
    + intros H. destruct (inv_ids s HI _ _ H) as (n & ? & ?).
      exists n. split; [done|lia].
  - intros id' r. rewrite lookup_insert. case_decide as Hid.
    + intros [= <-]. exists proc. split; [|done].
      cbn. rewrite lookup_app_r, Nat.sub_diag by done. done.
    + intros H. destruct (inv_process s HI _ _ H) as (p & Hp & Hcb).
      exists p. split; [|done]. rewrite lookup_app_l; [done|].
      eapply lookup_lt_Some; eauto.
  - intros i p Hp. apply lookup_app_Some in Hp as [Hp|[Hlen Hp]].
    + destruct (inv_owner s HI _ _ Hp) as (r & Hr & Hown).
      exists r. split; [|done]. rewrite lookup_insert_ne; [done|].
      intros Heq. eapply Hold; eauto.
    + apply list_lookup_singleton_Some in Hp as [Hi <-].
      exists run. cbn. rewrite lookup_insert_eq. split; [done|]. lia.
  - intros id' r p. rewrite lookup_insert. case_decide as Hid.
    + intros [= <-]. cbn. rewrite lookup_app_r, Nat.sub_diag by done.
      intros [= <-]. done.
    + intros H Hp. destruct (inv_process s HI _ _ H) as (p' & Hp' & Hcb).
      rewrite lookup_app_l in Hp by (eapply lookup_lt_Some; eauto).
      eapply inv_finished; eauto.
  - intros id' r. rewrite lookup_insert. case_decide as Hid.
    + intros [= <-]. done.
    + eapply inv_outcome; eauto.
  - intros id' r. rewrite lookup_insert. case_decide as Hid.
    + intros [= <-]. by left.
    + eapply inv_exclusive; eauto.
Qed.

Lemma kill_Inv p s : Inv s → Inv (kill p s).2.
Proof.
  intros HI. unfold kill. destruct (processes s !! p) as [proc|] eqn:Hp; [|done].
  destruct (phase proc) eqn:Hph; try done. cbn.
  eapply Inv_update_process; eauto.
Qed.

Lemma cancel_Inv id s : Inv s → Inv (cancel id s).2.
Proof.
  intros HI. unfold cancel. destruct (runList s !! id); [|done].
  by apply kill_Inv.
Qed.

Lemma onComplete_Inv p proc err stdout stderr now s :
  Inv s →
  processes s !! p = Some proc →
  phase proc ≠ Closed →
  Inv (onComplete module (callback proc) err stdout stderr now
         (with_processes <[p := set_phase Closed proc]> s)).2.
Proof.
  intros HI Hp Hph. destruct (inv_owner s HI _ _ Hp) as (r & Hr & Hown).
  assert (Hnone : result r = None ∧ error r = None).
  { eapply inv_outcome; [done..|].
    eapply inv_finished; eauto. congruence. }
  destruct Hnone as [Hres Herr].
  unfold onComplete. cbn. rewrite Hr.
  repeat case_match; unfold with_runList, with_processes; cbn;
    apply (Inv_update s p proc (set_phase Closed proc) r); try done; cbn;
    by (left + right).
Qed.

Lemma perform_Inv e s r s' : Inv s → perform module e s = Some (r, s') → Inv s'.
Proof.
  intros HI. destruct e as [name now|id now|id|p|p err out errout now]; cbn.
  - pose proof (start_Inv name now s HI).
    destruct (start module name now s). intros [= <- <-]. done.
  - intros [= <- <-]. done.
  - pose proof (cancel_Inv id s HI).
    destruct (cancel id s). intros [= <- <-]. done.
  - destruct (processes s !! p) as [proc|] eqn:Hp; [|done].
    case_decide as Hph; [|done]. intros [= <- <-].
    eapply Inv_update_process; eauto. cbn. rewrite Hph. done.
  - destruct (processes s !! p) as [proc|] eqn:Hp; [|done].
    case_decide as Hph; [done|].
    pose proof (onComplete_Inv p proc err out errout now s HI Hp Hph).
    destruct (onComplete _ _ _ _ _ _ _). intros [= <- <-]. done.
Qed.

Lemma step_Inv s s' : Inv s → step module s s' → Inv s'.
Proof. intros HI (e & r & H). eapply perform_Inv; eauto. Qed.

Lemma steps_Inv s s' : Inv s → rtc (step module) s s' → Inv s'.
Proof. intros HI H. induction H; eauto using step_Inv. Qed.

Lemma reachable_Inv s : reachable module s → Inv s.
Proof. apply steps_Inv, Inv_init. Qed.

End Invariant.

(** ** A finished run is frozen *)

Lemma Inv_finished_Closed s id r t proc :
  Inv s → runList s !! id = Some r → finished r = Some t →
  processes s !! process r = Some proc → phase proc = Closed.
Proof.
  intros HI Hr Hfin Hp.
  destruct (decide (phase proc = Closed)) as [|Hne]; [done|].
  apply (inv_finished s HI _ _ _ Hr Hp) in Hne. congruence.
Qed.

Section Frozen.

Variable module : TestModule.

(** No event changes the record of a finished run, nor its process object. *)
Lemma perform_frozen e s resp s' id r t proc :
  Inv s →
  runList s !! id = Some r → finished r = Some t →
  processes s !! process r = Some proc →
  perform module e s = Some (resp, s') →
  runList s' !! id = Some r ∧ processes s' !! process r = Some proc.
Proof.
  intros HI Hr Hfin Hp.
  pose proof (Inv_finished_Closed s id r t proc HI Hr Hfin Hp) as Hclosed.
  assert (Hlt : (process r < length (processes s))%nat)
    by (eapply lookup_lt_Some; eauto).
  destruct e as [name now|id' now|id'|p|p err out errout now]; cbn.
  - destruct (start_cases module name now s)
      as [[_ ->]|[(_ & e & -> & _)|(_ & cmd & _ & _ & ->)]];
      intros [= <- <-]; [done..|]. cbn.
    split.
    + rewrite lookup_insert_ne; [done|].
      intros Heq. pose proof (Inv_fresh s HI) as Hf. congruence.
    + by rewrite lookup_app_l.
  - intros [= <- <-]. done.
  - unfold cancel, kill. destruct (runList s !! id') as [r2|] eqn:H2; cbn.
    2: { intros [= <- <-]. done. }
    destruct (processes s !! process r2) as [proc2|] eqn:Hp2; cbn.
    2: { intros [= <- <-]. done. }
    destruct (phase proc2) eqn:Hph; cbn; intros [= <- <-]; try done. cbn.
    split; [done|]. rewrite list_lookup_insert_ne; [done|].
    intros Heq. rewrite Heq in Hp2. congruence.
  - destruct (processes s !! p) as [proc2|] eqn:Hp2; [|done].
    case_decide as Hph; [|done]. intros [= <- <-]. cbn.
    split; [done|]. rewrite list_lookup_insert_ne; [done|].
    intros ->. congruence.
  - destruct (processes s !! p) as [proc2|] eqn:Hp2; [|done].
    case_decide as Hph; [done|].
    assert (Hne : p ≠ process r) by (intros ->; congruence).
    destruct (inv_owner s HI _ _ Hp2) as (r2 & H2 & Hown).
    assert (Hid : callback proc2 ≠ id) by (intros Heq; congruence).
    unfold onComplete. cbn. rewrite H2.
    repeat case_match; intros [= <- <-]; simplify_eq; cbn;
      by rewrite lookup_insert_ne, list_lookup_insert_ne.
Qed.

Lemma steps_frozen s s' id r t proc :
  Inv s →
  runList s !! id = Some r → finished r = Some t →
  processes s !! process r = Some proc →
  rtc (step module) s s' →
  runList s' !! id = Some r ∧ processes s' !! process r = Some proc.
Proof.
  intros HI Hr Hfin Hp Hsteps. induction Hsteps as [|s1 s2 s3 Hstep _ IH]; [done|].
  destruct Hstep as (e & resp & He).
  destruct (perform_frozen e s1 resp s2 id r t proc HI Hr Hfin Hp He) as [Hr2 Hp2].
  apply IH; eauto using perform_Inv.
Qed.

(** [getStatus] reads the record of the run and its process object, and
    the clock only in its last branch. *)
Lemma getStatus_agree s s' id now now' r proc st :
  runList s !! id = Some r → processes s !! process r = Some proc →
  runList s' !! id = Some r → processes s' !! process r = Some proc →
  getStatus id now s = Normal st → st_status st ≠ "active" →
  getStatus id now' s' = Normal st.
Proof.
  unfold getStatus. intros -> Hp -> Hp'. rewrite Hp, Hp'. cbn.
  destruct (is_set (error r)); [done|].
  destruct (is_set (result r)); [done|].
  intros [= <-]. done.
Qed.

End Frozen.

(** ** Traces and reachable states *)

Section Traces.

Variable module : TestModule.

Lemma run_trace_steps tr s rs s' :
  run_trace module tr s = Some (rs, s') → rtc (step module) s s'.
Proof.
  revert s rs. induction tr as [|e tr IH]; intros s rs; cbn.
  - intros [= <- <-]. done.
  - destruct (perform module e s) as [[r s1]|] eqn:He; [|done].
    destruct (run_trace module tr s1) as [[rs1 s2]|] eqn:Htr; [|done].
    intros [= <- <-]. eapply rtc_l; [by exists e, r | by eapply IH].
Qed.

Lemma after_reachable tr : reachable module (after module tr).
Proof.
  unfold after, reachable.
  destruct (run_trace module tr init) as [[rs s]|] eqn:Htr; [|done].
  by eapply run_trace_steps.
Qed.

Lemma reachable_steps s s' :
  reachable module s → rtc (step module) s s' → reachable module s'.
Proof. unfold reachable. intros. by etrans. Qed.

End Traces.

(** ** Terminal statuses *)

Lemma terminal_not_active status : terminal status → status ≠ "active".
Proof. intros [->|[->| ->]]; done. Qed.

Lemma Inv_outcome_finished s id r :
  Inv s → runList s !! id = Some r →
  is_set (error r) = true ∨ is_set (result r) = true →
  is_Some (finished r).
Proof.
  intros HI Hr Hset. destruct (finished r) as [t|] eqn:Hfin; [by eexists|].
  destruct (inv_outcome s HI _ _ Hr Hfin) as [Hres Herr].
  rewrite Hres, Herr in Hset. by destruct Hset.
Qed.

(** A status other than [active] comes from a finished run. *)
Lemma getStatus_terminal_finished s id now st :
  Inv s → getStatus id now s = Normal st → st_status st ≠ "active" →
  ∃ r t proc, runList s !! id = Some r ∧ finished r = Some t
              ∧ processes s !! process r = Some proc.
Proof.
  intros HI Hst Hact. unfold getStatus in Hst.
  destruct (runList s !! id) as [r|] eqn:Hr; [|done].
  destruct (inv_process s HI _ _ Hr) as (proc & Hp & _).
  assert (Hset : is_set (error r) = true ∨ is_set (result r) = true).
  { destruct (is_set (error r)); [by left|].
    destruct (is_set (result r)); [by right|].
    injection Hst as <-. done. }
  destruct (Inv_outcome_finished s id r HI Hr Hset) as [t Hfin].
  by exists r, t, proc.
Qed.

(** C1. Once [getStatus] has reported a run completed, in error or
    cancelled, every later [getStatus] on it, after any events and at any
    time, returns the same answer (status, runtime and the rest); and
    [cancel] on such a run returns normally and leaves the state as it
    is. *)
Theorem terminal_status_frozen module s id now st :
  reachable module s →
  getStatus id now s = Normal st →
  terminal (st_status st) →
  (∀ s' now', rtc (step module) s s' → getStatus id now' s' = Normal st)
  ∧ cancel id s = (Normal (), s).
Proof.
  intros Hreach Hst Hterm.
  pose proof (reachable_Inv module s Hreach) as HI.
  apply terminal_not_active in Hterm.
  destruct (getStatus_terminal_finished s id now st HI Hst Hterm)
    as (r & t & proc & Hr & Hfin & Hp).
  split.
  - intros s' now' Hsteps.
    destruct (steps_frozen module s s' id r t proc HI Hr Hfin Hp Hsteps) as [Hr' Hp'].
    by apply (getStatus_agree s s' id now now' r proc st).
  - unfold cancel, kill. rewrite Hr, Hp.
    by rewrite (Inv_finished_Closed s id r t proc HI Hr Hfin Hp).
Qed.

Lemma terminal_status_frozen_witness :
  (∀ s' now', rtc (step unit_module) (after unit_module failed_trace) s' →
     getStatus "1" now' s'
     = Normal {| st_suite := "unit"; st_status := "error"; st_runtime := 40;
                 st_error := Some (JsError "Command failed");
                 st_result := None |})
  ∧ cancel "1" (after unit_module failed_trace)
    = (Normal (), after unit_module failed_trace).
Proof.
  apply (terminal_status_frozen unit_module (after unit_module failed_trace) "1" 50).
  - apply after_reachable.
  - vm_compute. reflexivity.
  - right. left. reflexivity.
Defined.

(** ** The status table of [getStatus] *)

(** C2, as amended. For a registered run of a reachable state: if [error]
    is truthy, the status is cancelled when the process was killed and
    error otherwise; if [result] is truthy, the status is completed; in
    both cases [finished] is set and the runtime is [finished - started].
    If neither property has been assigned, the status is active and the
    runtime is [now - started]. *)
Theorem getStatus_by_truthiness module s id r now :
  reachable module s →
  runList s !! id = Some r →
  ∃ proc, processes s !! process r = Some proc ∧
    (is_set (error r) = true →
       ∃ t, finished r = Some t ∧
         getStatus id now s
         = Normal {| st_suite := suite r;
                     st_status := if killed proc then "cancelled" else "error";
                     st_runtime := t - started r;
                     st_error := error r; st_result := None |}) ∧
    (is_set (result r) = true →
       ∃ t, finished r = Some t ∧
         getStatus id now s
         = Normal {| st_suite := suite r; st_status := "completed";
                     st_runtime := t - started r;
                     st_error := None; st_result := result r |}) ∧
    (error r = None → result r = None →
       getStatus id now s
       = Normal {| st_suite := suite r; st_status := "active";
                   st_runtime := now - started r;
                   st_error := None; st_result := None |}).
Proof.
  intros Hreach Hr. pose proof (reachable_Inv module s Hreach) as HI.
  destruct (inv_process s HI _ _ Hr) as (proc & Hp & _).
  exists proc. split; [done|]. unfold getStatus. rewrite Hr.
  split; [|split].
  - intros Hset.
    destruct (Inv_outcome_finished s id r HI Hr (or_introl Hset)) as [t Hfin].
    exists t. split; [done|]. rewrite Hset, Hp, Hfin. done.
  - intros Hset.
    destruct (Inv_outcome_finished s id r HI Hr (or_intror Hset)) as [t Hfin].
    exists t. split; [done|].
    destruct (inv_exclusive s HI _ _ Hr) as [Hnone|Hnone].
    + rewrite Hnone in Hset. done.
    + rewrite Hnone, Hset, Hfin. done.
  - intros -> ->. done.
Qed.

Lemma getStatus_by_truthiness_witness :
  ∃ proc, processes (after unit_module completed_trace) !! 0%nat = Some proc ∧
    getStatus "1" 75 (after unit_module completed_trace)
    = Normal {| st_suite := "unit"; st_status := "completed"; st_runtime := 40;
                st_error := None;
                st_result := Some (JsObject [("passed", JsNumber 3);
                                             ("failed", JsNumber 0)]) |}.
Proof.
  destruct (getStatus_by_truthiness unit_module (after unit_module completed_trace) "1"
              {| process := 0; suite := "unit"; started := 0; finished := Some 40;
                 result := Some (JsObject [("passed", JsNumber 3);
                                           ("failed", JsNumber 0)]);
                 error := None |} 75)
    as (proc & Hp & _ & Hcompleted & _).
  - apply after_reachable.
  - vm_compute. reflexivity.
  - exists proc. split; [exact Hp|].
    destruct (Hcompleted eq_refl) as (t & Hfin & Hst).
    injection Hfin as <-. exact Hst.
Defined.

(** The unused class [LocalRun] takes the runtime from [finished], as
    the statement on assignment does; [getStatus] differs from it on a run
    whose result is falsy. *)
Lemma LocalRun_toRuntime_by_finished now r :
  LocalRun.toRuntime now r = runtime_by_finished now r.
Proof. reflexivity. Qed.

Lemma LocalRun_differs_on_falsy_result :
  ∃ r, runList (after json_module zero_trace) !! "1" = Some r
       ∧ LocalRun.toRuntime 500 r = 100
       ∧ getStatus "1" 500 (after json_module zero_trace)
         = Normal {| st_suite := "unit"; st_status := "active"; st_runtime := 500;
                     st_error := None; st_result := None |}.
Proof. eexists. split; [vm_compute; reflexivity|]. split; vm_compute; reflexivity. Qed.

(** C2, as stated, fails. After a run whose decoder returned [0], the
    record has [finished] and [result] assigned, yet [getStatus] answers
    active with a runtime taken from the clock. *)
Lemma status_follows_assignment_fails :
  runList (after json_module zero_trace) !! "1"
  = Some {| process := 0; suite := "unit"; started := 0; finished := Some 100;
            result := Some (JsNumber 0); error := None |}
  ∧ getStatus "1" 500 (after json_module zero_trace)
    = Normal {| st_suite := "unit"; st_status := "active"; st_runtime := 500;
                st_error := None; st_result := None |}
  ∧ ¬ status_follows_assignment json_module.
Proof.
  split; [vm_compute; reflexivity|]. split; [vm_compute; reflexivity|].
  intros Hclaim.
  destruct (Hclaim (after json_module zero_trace) "1"
              {| process := 0; suite := "unit"; started := 0; finished := Some 100;
                 result := Some (JsNumber 0); error := None |}
              {| spawnfile := "run-tests"; spawnargs := ["unit"]; callback := "1";
                 killed := false; phase := Closed |} 500)
    as (st & Hst & Hstatus & _).
  - apply after_reachable.
  - vm_compute. reflexivity.
  - vm_compute. reflexivity.
  - vm_compute in Hst. injection Hst as <-. discriminate Hstatus.
Qed.

(** ** The completion notification *)

(** Before the callback of its process has been called, a run has neither
    a finishing time nor an outcome. *)
Lemma Inv_pending s p proc :
  Inv s → processes s !! p = Some proc → phase proc ≠ Closed →
  ∃ r, runList s !! callback proc = Some r ∧ process r = p
       ∧ finished r = None ∧ result r = None ∧ error r = None.
Proof.
  intros HI Hp Hph. destruct (inv_owner s HI _ _ Hp) as (r & Hr & Hown).
  assert (Hfin : finished r = None).
  { eapply inv_finished; eauto. congruence. }
  destruct (inv_outcome s HI _ _ Hr Hfin) as [Hres Herr]. by exists r.
Qed.

Lemma close_effect module s p proc err stdout stderr now :
  Inv s →
  processes s !! p = Some proc →
  phase proc ≠ Closed →
  ∃ r s',
    runList s !! callback proc = Some r ∧
    perform module (ProcessClose p err stdout stderr now) s
    = Some (CallbackDone (Normal ()), s') ∧
    runList s' !! callback proc
    = Some {| process := process r; suite := suite r; started := started r;
              finished := Some now;
              result := (chosen_outcome module err stdout stderr).1;
              error := (chosen_outcome module err stdout stderr).2 |}.
Proof.
  intros HI Hp Hph.
  destruct (Inv_pending s p proc HI Hp Hph) as (r & Hr & Hown & Hfin & Hres & Herr).
  exists r. cbn. rewrite Hp. rewrite decide_False by done.
  unfold onComplete, chosen_outcome. cbn. rewrite Hr.
  destruct (truthy err).
  { eexists. split; [done|]. split; [done|]. cbn.
    rewrite lookup_insert_eq. unfold set_error, set_finished. cbn. by rewrite Hres. }
  destruct (negb (nonempty stdout) && nonempty stderr).
  { eexists. split; [done|]. split; [done|]. cbn.
    rewrite lookup_insert_eq. unfold set_error, set_finished. cbn. by rewrite Hres. }
  destruct (decodeResult module stdout) as [v|e].
  - eexists. split; [done|]. split; [done|]. cbn.
    rewrite lookup_insert_eq. unfold set_result, set_finished. cbn. by rewrite Herr.
  - eexists. split; [done|]. split; [done|]. cbn.
    rewrite lookup_insert_eq. unfold set_error, set_finished. cbn. by rewrite Hres.
Qed.

(** C3. When the platform notifies the completion of a process, the
    callback returns normally and leaves in the record of its run the
    time of the notification as [finished] and the outcome chosen by
    precedence: the reported error; else, with empty standard output and
    non-empty diagnostic output, an error wrapping the diagnostic text;
    else the decoder's exception as error, or its value as result. The
    other properties of the record are unchanged. *)
Theorem completion_precedence module s p proc err stdout stderr now :
  reachable module s →
  processes s !! p = Some proc →
  phase proc ≠ Closed →
  ∃ r s',
    runList s !! callback proc = Some r ∧
    perform module (ProcessClose p err stdout stderr now) s
    = Some (CallbackDone (Normal ()), s') ∧
    runList s' !! callback proc
    = Some {| process := process r; suite := suite r; started := started r;
              finished := Some now;
              result := (chosen_outcome module err stdout stderr).1;
              error := (chosen_outcome module err stdout stderr).2 |}.
Proof.
  intros Hreach. apply close_effect. by apply (reachable_Inv module).
Qed.

Lemma completion_precedence_witness :
  ∃ r s',
    runList (after unit_module [Start "unit" 0]) !! "1" = Some r ∧
    perform unit_module (ProcessClose 0 JsNull EmptyString "boom" 40)
      (after unit_module [Start "unit" 0])
    = Some (CallbackDone (Normal ()), s') ∧
    runList s' !! "1"
    = Some {| process := process r; suite := suite r; started := started r;
              finished := Some 40;
              result := None; error := Some (JsError "boom") |}.
Proof.
  apply (completion_precedence unit_module (after unit_module [Start "unit" 0]) 0
           {| spawnfile := "run-tests"; spawnargs := ["unit"]; callback := "1";
              killed := false; phase := Running |} JsNull EmptyString "boom" 40).
  - apply after_reachable.
  - vm_compute. reflexivity.
  - discriminate.
Defined.

(** ** The life of a run record *)

(** C4. In every reachable state and for every run record: while
    [finished] is unset, [result] and [error] are unset; [finished]
    becomes set by the completion notification of the run's process,
    which the platform can deliver as long as [finished] is unset; and
    once [finished] is set the record, its [finished], [result] and
    [error] included, is the same in every later state. *)
Theorem run_record_lifecycle module s id r :
  reachable module s →
  runList s !! id = Some r →
  (finished r = None → result r = None ∧ error r = None)
  ∧ (finished r = None →
       ∀ err stdout stderr now, ∃ s' r',
         perform module (ProcessClose (process r) err stdout stderr now) s
         = Some (CallbackDone (Normal ()), s')
         ∧ runList s' !! id = Some r' ∧ finished r' = Some now)
  ∧ (∀ t s', finished r = Some t → rtc (step module) s s' →
       runList s' !! id = Some r).
Proof.
  intros Hreach Hr. pose proof (reachable_Inv module s Hreach) as HI.
  destruct (inv_process s HI _ _ Hr) as (proc & Hp & Hcb).
  split; [|split].
  - eapply inv_outcome; eauto.
  - intros Hfin err stdout stderr now.
    assert (Hph : phase proc ≠ Closed) by (eapply inv_finished; eauto).
    destruct (close_effect module s (process r) proc err stdout stderr now
                HI Hp Hph) as (r0 & s' & Hr0 & Hperf & Hr').
    rewrite Hcb in Hr'. eexists s', _. split; [done|]. split; [done|]. done.
  - intros t s' Hfin Hsteps.
    by destruct (steps_frozen module s s' id r t proc HI Hr Hfin Hp Hsteps).
Qed.

Lemma run_record_lifecycle_witness :
  result {| process := 0; suite := "unit"; started := 0; finished := None;
            result := None; error := None |} = None
  ∧ ∀ s', rtc (step unit_module) (after unit_module completed_trace) s' →
      runList s' !! "1" = runList (after unit_module completed_trace) !! "1".
Proof.
  split.
  - apply (run_record_lifecycle unit_module (after unit_module [Start "unit" 0]) "1"
             {| process := 0; suite := "unit"; started := 0; finished := None;
                result := None; error := None |}).
    + apply after_reachable.
    + vm_compute. reflexivity.
    + reflexivity.
  - intros s' Hsteps.
    destruct (run_record_lifecycle unit_module (after unit_module completed_trace) "1"
                {| process := 0; suite := "unit"; started := 0; finished := Some 40;
                   result := Some (JsObject [("passed", JsNumber 3);
                                             ("failed", JsNumber 0)]);
                   error := None |}) as (_ & _ & Hfrozen).
    + apply after_reachable.
    + vm_compute. reflexivity.
    + rewrite (Hfrozen 40 s' eq_refl Hsteps). vm_compute. reflexivity.
Defined.

(** ** The non-null assertions of [getStatus] *)

Lemma getStatus_no_TypeError s id now msg :
  Inv s → getStatus id now s ≠ Throw (TypeError msg).
Proof.
  intros HI. unfold getStatus.
  destruct (runList s !! id) as [r|] eqn:Hr; [|done].
  destruct (inv_process s HI _ _ Hr) as (proc & Hp & _). rewrite Hp. cbn.
  destruct (is_set (error r)) eqn:Herr.
  { destruct (Inv_outcome_finished s id r HI Hr (or_introl Herr)) as [t ->]. done. }
  destruct (is_set (result r)) eqn:Hres; [|done].
  destruct (Inv_outcome_finished s id r HI Hr (or_intror Hres)) as [t ->]. done.
Qed.

(** C10. In every reachable state, a run whose [error] or [result] is
    truthy has [finished] set; so [getStatus] never fails on reading
    [run.finished] (it raises no [TypeError]). *)
Theorem outcome_implies_finished module s :
  reachable module s →
  (∀ id r, runList s !! id = Some r →
     is_set (error r) = true ∨ is_set (result r) = true →
     is_Some (finished r))
  ∧ (∀ id now msg, getStatus id now s ≠ Throw (TypeError msg)).
Proof.
  intros Hreach. pose proof (reachable_Inv module s Hreach) as HI. split.
  - intros id r. by apply Inv_outcome_finished.
  - intros id now msg. by apply getStatus_no_TypeError.
Qed.

Lemma outcome_implies_finished_witness :
  is_Some (finished {| process := 0; suite := "unit"; started := 0;
                       finished := Some 40; result := None;
                       error := Some (JsError "Command failed") |}).
Proof.
  apply (outcome_implies_finished unit_module (after unit_module failed_trace)
           (after_reachable unit_module failed_trace)) with (id := "1").
  - vm_compute. reflexivity.
  - left. reflexivity.
Defined.

(** ** [start] *)

(** C6. On a suite the catalog does not know, [start] throws
    [NotFound(suite)] and leaves the state as it was: the same run
    records, the same processes, the same counter. *)
Theorem start_unknown_suite module s name now :
  has module name = false →
  start module name now s = (Throw (NotFound name), s).
Proof. intros Hhas. unfold start. by rewrite Hhas. Qed.

Lemma start_unknown_suite_witness :
  start unit_module "missing" 7 init = (Throw (NotFound "missing"), init).
Proof. apply (start_unknown_suite unit_module init "missing" 7). reflexivity. Defined.

(** C8. When [start] has returned an identifier, [getStatus] on it in
    the state [start] leaves, at a time not before the start, reports the
    run active with a non-negative runtime. *)
Theorem status_after_start module s name t0 t1 id s' :
  start module name t0 s = (Normal id, s') →
  t0 ≤ t1 →
  ∃ st,
    getStatus id t1 s' = Normal st
    ∧ st_suite st = name
    ∧ st_status st = "active"
    ∧ st_runtime st = t1 - t0
    ∧ 0 ≤ st_runtime st.
Proof.
  intros Hstart Hle.
  destruct (start_cases module name t0 s)
    as [[_ Hst]|[(_ & e & Hst & _)|(_ & cmd & _ & _ & Hst)]];
    rewrite Hst in Hstart; [done..|]. injection Hstart as <- <-.
  eexists. unfold getStatus. cbn. rewrite lookup_insert_eq. cbn.
  split; [done|]. do 3 (split; [done|]). cbn. lia.
Qed.

Lemma status_after_start_witness :
  ∃ st,
    getStatus "1" 25 (after unit_module [Start "unit" 10]) = Normal st
    ∧ st_suite st = "unit"
    ∧ st_status st = "active"
    ∧ st_runtime st = 25 - 10
    ∧ 0 ≤ st_runtime st.
Proof.
  apply (status_after_start unit_module init "unit" 10 25 "1"
           (after unit_module [Start "unit" 10])).
  - vm_compute. reflexivity.
  - lia.
Defined.

(** ** What is thrown, and what is reported as data *)

(** What [start] throws: [NotFound] of an unknown suite, or, for a known
    one, what [makeRunCommand] or [execFile] throws. *)
Lemma start_throws module s name now e :
  (start module name now s).1 = Throw e →
  (has module name = false ∧ e = NotFound name)
  ∨ (has module name = true
     ∧ (makeRunCommand module name = Throw e
        ∨ ∃ cmd, makeRunCommand module name = Normal cmd
                 ∧ (execFile cmd (pretty (nextId s)) (generateId s).2).1 = Throw e)).
Proof.
  unfold start. destruct (has module name); cbn.
  - intros He. right. split; [done|].
    destruct (makeRunCommand module name) as [cmd|e']; cbn in He.
    + right. exists cmd. split; [done|].
      destruct (execFile cmd _ _) as [[proc|e'] s']; cbn in *; congruence.
    + left. congruence.
  - intros [= <-]. by left.
Qed.

Lemma getStatus_throws s id now e :
  Inv s → getStatus id now s = Throw e → e = NotFound id.
Proof.
  intros HI Hst. destruct e as [msg|msg|v].
  - unfold getStatus in Hst. destruct (runList s !! id) as [r|]; [|congruence].
    destruct (is_set (error r)).
    { destruct (processes s !! process r), (finished r); done. }
    destruct (is_set (result r)); [|done]. destruct (finished r); done.
  - by apply getStatus_no_TypeError in Hst.
  - unfold getStatus in Hst. destruct (runList s !! id) as [r|]; [|done].
    destruct (is_set (error r)).
    { destruct (processes s !! process r), (finished r); done. }
    destruct (is_set (result r)); [|done]. destruct (finished r); done.
Qed.

Lemma cancel_throws s id e :
  Inv s → (cancel id s).1 = Throw e → e = NotFound id.
Proof.
  intros HI. unfold cancel, kill.
  destruct (runList s !! id) as [r|] eqn:Hr; cbn; [|congruence].
  destruct (inv_process s HI _ _ Hr) as (proc & -> & _).
  destruct (phase proc); done.
Qed.

(** The error that a completion notification records. *)
Lemma close_reports module s p err stdout stderr now resp s' :
  Inv s →
  perform module (ProcessClose p err stdout stderr now) s = Some (resp, s') →
  resp = CallbackDone (Normal ())
  ∧ ∃ proc r',
      processes s !! p = Some proc
      ∧ runList s' !! callback proc = Some r'
      ∧ error r' = (chosen_outcome module err stdout stderr).2
      ∧ (is_set (error r') = true →
           ∀ now', ∃ st, getStatus (callback proc) now' s' = Normal st
                         ∧ st_error st = error r'
                         ∧ (st_status st = "error" ∨ st_status st = "cancelled")).
Proof.
  intros HI Hperf.
  assert (HI' : Inv s') by (eapply perform_Inv; eauto).
  cbn in Hperf. destruct (processes s !! p) as [proc|] eqn:Hp; [|done].
  case_decide as Hph; [done|].
  destruct (close_effect module s p proc err stdout stderr now HI Hp Hph)
    as (r & s1 & Hr & Hperf1 & Hr1).
  cbn in Hperf1. rewrite Hp, decide_False in Hperf1 by done.
  rewrite Hperf1 in Hperf. injection Hperf as <- <-.
  split; [done|]. eexists proc, _. split; [done|]. split; [exact Hr1|].
  split; [done|]. cbn. intros Hset now'.
  destruct (inv_process s1 HI' _ _ Hr1) as (proc1 & Hp1 & _).
  unfold getStatus. rewrite Hr1. cbn in *. rewrite Hset, Hp1. cbn.
  eexists. split; [done|]. split; [done|]. cbn. destruct (killed proc1); auto.
Qed.

(** C7, as amended. In every reachable state: [getStatus] and [cancel]
    on an identifier without a run record throw [NotFound] of that
    identifier, and they throw nothing else; [start] throws [NotFound] of
    an unknown suite and, for a known suite, only what [makeRunCommand] or
    [execFile] throws; and a completion notification throws nothing: it
    records the failure of the run as the [error] of its record, which,
    when it is truthy, later [getStatus] calls return in their answer,
    with status error or cancelled. *)
Theorem thrown_errors_and_reported_failures module s :
  reachable module s →
  (∀ id now, runList s !! id = None →
     getStatus id now s = Throw (NotFound id)
     ∧ cancel id s = (Throw (NotFound id), s))
  ∧ (∀ id now e, getStatus id now s = Throw e → e = NotFound id)
  ∧ (∀ id e, (cancel id s).1 = Throw e → e = NotFound id)
  ∧ (∀ name now e, (start module name now s).1 = Throw e →
       (has module name = false ∧ e = NotFound name)
       ∨ (has module name = true
          ∧ (makeRunCommand module name = Throw e
             ∨ ∃ cmd, makeRunCommand module name = Normal cmd
                      ∧ (execFile cmd (pretty (nextId s)) (generateId s).2).1
                        = Throw e)))
  ∧ (∀ p err stdout stderr now resp s',
       perform module (ProcessClose p err stdout stderr now) s = Some (resp, s') →
       resp = CallbackDone (Normal ())
       ∧ ∃ proc r',
           processes s !! p = Some proc
           ∧ runList s' !! callback proc = Some r'
           ∧ error r' = (chosen_outcome module err stdout stderr).2
           ∧ (is_set (error r') = true →
                ∀ now', ∃ st, getStatus (callback proc) now' s' = Normal st
                              ∧ st_error st = error r'
                              ∧ (st_status st = "error"
                                 ∨ st_status st = "cancelled"))).
Proof.
  intros Hreach. pose proof (reachable_Inv module s Hreach) as HI.
  split; [|split; [|split; [|split]]].
  - intros id now Hnone. unfold getStatus, cancel. by rewrite Hnone.
  - intros id now e. by apply getStatus_throws.
  - intros id e. by apply cancel_throws.
  - intros name now e. apply start_throws.
  - intros p err stdout stderr now resp s'. by apply close_reports.
Qed.

Lemma thrown_errors_and_reported_failures_witness :
  getStatus "2" 60 (after unit_module failed_trace) = Throw (NotFound "2")
  ∧ cancel "2" (after unit_module failed_trace)
    = (Throw (NotFound "2"), after unit_module failed_trace).
Proof.
  apply (thrown_errors_and_reported_failures unit_module
           (after unit_module failed_trace)
           (after_reachable unit_module failed_trace)).
  vm_compute. reflexivity.
Defined.

(** C7, as stated, fails. [start] on a known suite whose command is empty
    throws the [TypeError] of [execFile], with the counter moved and no
    run registered; and a decoder's exception that is falsy is recorded
    but never returned by [getStatus], which goes on answering active. *)
Lemma only_NotFound_thrown_fails :
  start faulty_module "blank" 0 init
  = (Throw (TypeError "file"),
     {| runList := ∅; nextId := 2%N; processes := [] |})
  ∧ ¬ only_NotFound_thrown faulty_module
  ∧ error <$> runList (after faulty_module
                         [Start "unit" 0; ProcessClose 0 JsNull "ok" EmptyString 100])
                !! "1"
    = Some (Some (JsNumber 0))
  ∧ getStatus "1" 500
      (after faulty_module [Start "unit" 0; ProcessClose 0 JsNull "ok" EmptyString 100])
    = Normal {| st_suite := "unit"; st_status := "active"; st_runtime := 500;
                st_error := None; st_result := None |}
  ∧ ¬ failures_surfaced faulty_module.
Proof.
  split; [vm_compute; reflexivity|]. split.
  { intros Hclaim.
    destruct (Hclaim init (rtc_refl _ _)) as (Hstart & _).
    destruct (Hstart "blank" 0 (TypeError "file")) as [what Hwhat];
      [vm_compute; reflexivity|discriminate Hwhat]. }
  split; [vm_compute; reflexivity|]. split; [vm_compute; reflexivity|].
  intros Hclaim.
  destruct (Hclaim (after faulty_module [Start "unit" 0]) 0%nat
              (spawned {| command := "run-tests"; args := ["unit"] |} "1")
              JsNull "ok" EmptyString 100 (CallbackDone (Normal ()))
              (after faulty_module
                 [Start "unit" 0; ProcessClose 0 JsNull "ok" EmptyString 100])
              (JsNumber 0)) with (now' := 500) as (st & Hst & Herr).
  - apply after_reachable.
  - vm_compute. reflexivity.
  - vm_compute. reflexivity.
  - reflexivity.
  - vm_compute in Hst. injection Hst as <-. discriminate Herr.
Qed.

(** ** A decoder that returns a falsy value *)

(** C9. When a process completes without error, with output that the
    decoder turns into a falsy value, the callback sets [finished] and
    stores that value as [result]; and from then on, after any events and
    at any time, [getStatus] reports the run active, with the runtime
    [now - started] of the time of the call. *)
Theorem falsy_result_stays_active module s p proc err stdout stderr now v :
  reachable module s →
  processes s !! p = Some proc →
  phase proc ≠ Closed →
  truthy err = false →
  negb (nonempty stdout) && nonempty stderr = false →
  decodeResult module stdout = Normal v →
  truthy v = false →
  ∃ s' r',
    perform module (ProcessClose p err stdout stderr now) s
    = Some (CallbackDone (Normal ()), s')
    ∧ runList s' !! callback proc = Some r'
    ∧ finished r' = Some now
    ∧ result r' = Some v
    ∧ ∀ s'' now', rtc (step module) s' s'' →
        getStatus (callback proc) now' s''
        = Normal {| st_suite := suite r'; st_status := "active";
                    st_runtime := now' - started r';
                    st_error := None; st_result := None |}.
Proof.
  intros Hreach Hp Hph Herr Hout Hdec Hv.
  pose proof (reachable_Inv module s Hreach) as HI.
  destruct (close_effect module s p proc err stdout stderr now HI Hp Hph)
    as (r & s' & Hr & Hperf & Hr').
  unfold chosen_outcome in Hr'. rewrite Herr, Hout, Hdec in Hr'. cbn in Hr'.
  assert (HI' : Inv s') by (eapply perform_Inv; eauto).
  destruct (inv_process s' HI' _ _ Hr') as (proc' & Hp' & _).
  eexists s', _. split; [done|]. split; [exact Hr'|].
  split; [done|]. split; [done|].
  intros s'' now' Hsteps.
  destruct (steps_frozen module s' s'' _ _ now proc' HI' Hr' eq_refl Hp' Hsteps)
    as [Hr'' _].
  unfold getStatus. rewrite Hr''. cbn. by rewrite Hv.
Qed.

Lemma falsy_result_stays_active_witness :
  ∃ s' r',
    perform json_module (ProcessClose 0 JsNull "null" EmptyString 100)
      (after json_module [Start "unit" 0])
    = Some (CallbackDone (Normal ()), s')
    ∧ runList s' !! "1" = Some r'
    ∧ finished r' = Some 100
    ∧ result r' = Some JsNull
    ∧ ∀ s'' now', rtc (step json_module) s' s'' →
        getStatus "1" now' s''
        = Normal {| st_suite := suite r'; st_status := "active";
                    st_runtime := now' - started r';
                    st_error := None; st_result := None |}.
Proof.
  apply (falsy_result_stays_active json_module (after json_module [Start "unit" 0]) 0
           {| spawnfile := "run-tests"; spawnargs := ["unit"]; callback := "1";
              killed := false; phase := Running |} JsNull "null" EmptyString 100 JsNull).
  - apply after_reachable.
  - vm_compute. reflexivity.
  - discriminate.
  - reflexivity.
  - reflexivity.
  - reflexivity.
  - reflexivity.
Defined.

(** ** Identifiers *)

Lemma StronglySorted_lt_NoDup (ns : list N) : StronglySorted N.lt ns → NoDup ns.
Proof.
  induction 1 as [|n ns _ IH Hall]; constructor; [|done].
  intros Hin. rewrite Forall_forall in Hall. specialize (Hall n Hin). lia.
Qed.

Section Identifiers.

Variable module : TestModule.

(** The effect of one event on the counter, and the identifier it returns. *)
Lemma perform_counter e s r s' :
  perform module e s = Some (r, s') →
  nextId s' = (nextId s + N.of_nat (known_starts module [e]))%N
  ∧ (returned_ids [r] = []
     ∨ returned_ids [r] = [pretty (nextId s)] ∧ nextId s' = (nextId s + 1)%N).
Proof.
  destruct e as [name now|id now|id|p|p err out errout now]; cbn.
  - destruct (start_cases module name now s)
      as [[-> ->]|[(-> & e & -> & _)|(-> & cmd & _ & _ & ->)]];
      intros [= <- <-]; cbn.
    + split; [lia|by left].
    + split; [lia|by left].
    + split; [lia|by right].
  - intros [= <- <-]. split; [lia|by left].
  - unfold cancel, kill. destruct (runList s !! id) as [r2|]; cbn.
    2: { intros [= <- <-]. split; [lia|by left]. }
    destruct (processes s !! process r2) as [proc|]; cbn.
    2: { intros [= <- <-]. split; [lia|by left]. }
    destruct (phase proc); intros [= <- <-]; cbn; (split; [lia|by left]).
  - destruct (processes s !! p) as [proc|]; [|done].
    case_decide; [|done]. intros [= <- <-]. cbn. split; [lia|by left].
  - destruct (processes s !! p) as [proc|]; [|done].
    case_decide; [done|]. unfold onComplete. cbn.
    repeat case_match; intros [= <- <-]; simplify_eq; cbn; (split; [lia|by left]).
Qed.

Lemma known_starts_cons e tr :
  known_starts module (e :: tr) = (known_starts module [e] + known_starts module tr)%nat.
Proof. destruct e; cbn; try done. destruct (has module name); cbn; lia. Qed.

Lemma returned_ids_cons r rs : returned_ids (r :: rs) = returned_ids [r] ++ returned_ids rs.
Proof. destruct r as [[id|e]| | | |]; done. Qed.

(** The identifiers a trace returns render counter values that grow, each
    between the counter before the trace and the counter after it. *)
Lemma run_trace_counters tr s rs s' :
  run_trace module tr s = Some (rs, s') →
  nextId s' = (nextId s + N.of_nat (known_starts module tr))%N
  ∧ ∃ ns : list N,
      returned_ids rs = pretty <$> ns
      ∧ StronglySorted N.lt ns
      ∧ Forall (λ n, (nextId s ≤ n < nextId s')%N) ns.
Proof.
  revert s rs. induction tr as [|e tr IH]; intros s rs.
  - cbn. intros [= <- <-]. split; [lia|]. exists []. by repeat constructor.
  - cbn [run_trace].
    destruct (perform module e s) as [[r s1]|] eqn:He; [|done].
    destruct (run_trace module tr s1) as [[rs1 s2]|] eqn:Htr; [|done].
    intros [= <- <-].
    destruct (perform_counter e s r s1 He) as [Hn Hid].
    destruct (IH s1 rs1 Htr) as (Hn' & ns & Hids & Hsorted & Hall).
    rewrite known_starts_cons, returned_ids_cons. split; [lia|].
    destruct Hid as [->|[-> Hone]]; cbn.
    + exists ns. split; [done|]. split; [done|].
      eapply Forall_impl; [exact Hall|]. cbn. intros n Hrange. lia.
    + exists (nextId s :: ns). split; [by rewrite Hids|]. split.
      * constructor; [done|].
        eapply Forall_impl; [exact Hall|]. cbn. intros n Hrange. lia.
      * constructor; [lia|].
        eapply Forall_impl; [exact Hall|]. cbn. intros n Hrange. lia.
Qed.

End Identifiers.

(** C5, as amended. For every trace of an initially empty dispatcher,
    whatever events are interleaved with its [start] calls and however the
    runs end: the counter, which starts from 1, has moved by one for each
    [start] call on a suite the catalog knows, whether that call returned
    or threw, and not at all for the calls that threw [NotFound]; each
    identifier returned is the decimal rendering of the counter at its
    call; and the identifiers returned, in the order of the calls, render
    strictly increasing numbers and are pairwise distinct. *)
Theorem identifiers_render_counter module tr rs s :
  run_trace module tr init = Some (rs, s) →
  nextId s = (1 + N.of_nat (known_starts module tr))%N
  ∧ (∃ ns : list N,
       returned_ids rs = pretty <$> ns
       ∧ StronglySorted N.lt ns
       ∧ Forall (λ n, (1 ≤ n < nextId s)%N) ns)
  ∧ NoDup (returned_ids rs)
  ∧ (∀ name now s0 id s1, start module name now s0 = (Normal id, s1) →
       id = pretty (nextId s0) ∧ nextId s1 = (nextId s0 + 1)%N)
  ∧ (∀ name now s0, has module name = true →
       nextId (start module name now s0).2 = (nextId s0 + 1)%N)
  ∧ (∀ name now s0, has module name = false →
       nextId (start module name now s0).2 = nextId s0).
Proof.
  intros Htr.
  destruct (run_trace_counters module tr init rs s Htr)
    as (Hn & ns & Hids & Hsorted & Hall).
  cbn in Hn, Hall. split; [done|]. split; [by exists ns|].
  split; [|split; [|split]].
  - rewrite Hids. apply (NoDup_fmap_2 _). by apply StronglySorted_lt_NoDup.
  - intros name now s0 id s1 Hstart.
    destruct (start_cases module name now s0)
      as [[_ Hst]|[(_ & e & Hst & _)|(_ & cmd & _ & _ & Hst)]];
      rewrite Hst in Hstart; [done..|]. by injection Hstart as <- <-.
  - intros name now s0 Hhas.
    destruct (start_cases module name now s0)
      as [[Hno _]|[(_ & e & -> & _)|(_ & cmd & _ & _ & ->)]]; [congruence|done..].
  - intros name now s0 Hhas.
    destruct (start_cases module name now s0)
      as [[_ ->]|[(Hyes & _)|(Hyes & _)]]; [done|congruence..].
Qed.

Lemma identifiers_render_counter_witness :
  nextId (after faulty_module [Start "blank" 0; Start "missing" 5; Start "unit" 9])
  = (1 + N.of_nat 2)%N.
Proof.
  apply (identifiers_render_counter faulty_module
           [Start "blank" 0; Start "missing" 5; Start "unit" 9]
           [Started (Throw (TypeError "file")); Started (Throw (NotFound "missing"));
            Started (Normal "2")]).
  vm_compute. reflexivity.
Defined.

(** C5, as stated, fails: a [start] call on an unknown suite does not move
    the counter, and the next identifier issued is still ["1"]. *)
Lemma counter_moves_on_every_start_fails :
  nextId (start unit_module "missing" 0 init).2 = 1%N
  ∧ run_trace unit_module [Start "missing" 0; Start "unit" 1] init
    = Some ([Started (Throw (NotFound "missing")); Started (Normal "1")],
            after unit_module [Start "unit" 1])
  ∧ ¬ counter_moves_on_every_start unit_module.
Proof.
  split; [reflexivity|]. split; [vm_compute; reflexivity|].
  intros Hclaim. specialize (Hclaim init "missing" 0). vm_compute in Hclaim.
  discriminate Hclaim.
Qed.

(** * Further properties of the registry *)

(** ** Runs stay registered *)

Section Registry.

Variable module : TestModule.

Lemma perform_keeps_run e s resp s' id r :
  Inv s →
  runList s !! id = Some r →
  perform module e s = Some (resp, s') →
  ∃ r', runList s' !! id = Some r'
        ∧ suite r' = suite r ∧ started r' = started r ∧ process r' = process r.
Proof.
  intros HI Hr.
  destruct e as [name now|id' now|id'|p|p err out errout now]; cbn.
  - destruct (start_cases module name now s)
      as [[_ ->]|[(_ & e & -> & _)|(_ & cmd & _ & _ & ->)]];
      intros [= <- <-]; cbn; [by exists r..|].
    exists r. split; [|done]. rewrite lookup_insert_ne; [done|].
    intros Heq. pose proof (Inv_fresh s HI). congruence.
  - intros [= <- <-]. by exists r.
  - unfold cancel, kill. destruct (runList s !! id') as [r2|]; cbn.
    2: { intros [= <- <-]. by exists r. }
    destruct (processes s !! process r2) as [proc|]; cbn.
    2: { intros [= <- <-]. by exists r. }
    destruct (phase proc); intros [= <- <-]; by exists r.
  - destruct (processes s !! p) as [proc|]; [|done].
    case_decide; [|done]. intros [= <- <-]. by exists r.
  - destruct (processes s !! p) as [proc|] eqn:Hp; [|done].
    case_decide; [done|]. unfold onComplete. cbn.
    destruct (inv_owner s HI _ _ Hp) as (r2 & H2 & _). rewrite H2.
    destruct (decide (callback proc = id)) as [Heq|Hne].
    + assert (r2 = r) as -> by congruence. rewrite Heq.
      repeat case_match; intros [= <- <-]; simplify_eq; cbn;
        rewrite lookup_insert_eq; by eexists.
    + repeat case_match; intros [= <- <-]; simplify_eq; cbn;
        rewrite lookup_insert_ne by done; by exists r.
Qed.

End Registry.

(** X1. A run is never removed from the registry, and its suite, its
    starting time and its process never change: from a reachable state in
    which an identifier is registered, every later state has a record for
    it with the same three properties. *)
Theorem run_stays_registered module s s' id r :
  reachable module s →
  runList s !! id = Some r →
  rtc (step module) s s' →
  ∃ r', runList s' !! id = Some r'
        ∧ suite r' = suite r ∧ started r' = started r ∧ process r' = process r.
Proof.
  intros Hreach Hr Hsteps. pose proof (reachable_Inv module s Hreach) as HI.
  clear Hreach. revert r Hr HI.
  induction Hsteps as [s|s1 s2 s3 (e & resp & He) _ IH]; intros r Hr HI.
  - by exists r.
  - destruct (perform_keeps_run module e s1 resp s2 id r HI Hr He)
      as (r2 & Hr2 & Hsu & Hst & Hpr).
    destruct (IH r2 Hr2) as (r3 & Hr3 & Hsu3 & Hst3 & Hpr3).
    { eapply perform_Inv; eauto. }
    exists r3. split; [done|]. split; [|split]; congruence.
Qed.

Lemma run_stays_registered_witness :
  ∃ r', runList (after unit_module completed_trace) !! "1" = Some r'
        ∧ suite r' = "unit" ∧ started r' = 0 ∧ process r' = 0%nat.
Proof.
  apply (run_stays_registered unit_module (after unit_module [Start "unit" 0])
           (after unit_module completed_trace) "1" (registered "unit" 0 0)).
  - apply after_reachable.
  - vm_compute. reflexivity.
  - apply (run_trace_steps unit_module [ProcessClose 0 JsNull "ok" EmptyString 40] _
             [CallbackDone (Normal ())]).
    vm_compute. reflexivity.
Defined.

(** ** What [start] registers *)

(** X2. In a reachable state, a [start] that returns an identifier
    returns the rendering of the counter, an identifier that was not
    registered before; it adds one record under it, active and started at
    the time of the call, and leaves every other record as it was; it
    spawns one process, running the command the catalog made for the
    suite; and it moves the counter by one. *)
Theorem start_registers_fresh_run module s name now id s' :
  reachable module s →
  start module name now s = (Normal id, s') →
  id = pretty (nextId s)
  ∧ runList s !! id = None
  ∧ runList s' !! id = Some (registered name (length (processes s)) now)
  ∧ (∀ id' r, runList s !! id' = Some r → runList s' !! id' = Some r)
  ∧ size (runList s') = S (size (runList s))
  ∧ (∃ cmd, makeRunCommand module name = Normal cmd
            ∧ processes s' = processes s ++ [spawned cmd id])
  ∧ nextId s' = (nextId s + 1)%N.
Proof.
  intros Hreach Hstart. pose proof (reachable_Inv module s Hreach) as HI.
  pose proof (Inv_fresh s HI) as Hfresh.
  destruct (start_cases module name now s)
    as [[_ Hst]|[(_ & e & Hst & _)|(_ & cmd & Hcmd & _ & Hst)]];
    rewrite Hst in Hstart; [done..|]. injection Hstart as <- <-. cbn.
  split; [done|]. split; [done|]. split; [by rewrite lookup_insert_eq|].
  split; [|split; [|split; [by exists cmd|done]]].
  - intros id' r Hr. rewrite lookup_insert_ne; [done|]. congruence.
  - by rewrite map_size_insert_None.
Qed.

Lemma start_registers_fresh_run_witness :
  "2" = pretty (nextId (after unit_module completed_trace))
  ∧ runList (after unit_module completed_trace) !! "2" = None
  ∧ runList (after unit_module (completed_trace ++ [Start "unit" 50])) !! "2"
    = Some (registered "unit" 1 50).
Proof.
  destruct (start_registers_fresh_run unit_module (after unit_module completed_trace)
              "unit" 50 "2" (after unit_module (completed_trace ++ [Start "unit" 50])))
    as (Hid & Hfresh & Hrun & _).
  - apply after_reachable.
  - vm_compute. reflexivity.
  - split; [exact Hid|]. split; [exact Hfresh|exact Hrun].
Defined.

(** X14. A [start] on a known suite that throws (the catalog could not
    make the command, or [execFile] refused it) registers no run and
    spawns no process, but has moved the counter: the identifier it would
    have returned is skipped, and the next [start] that returns gives the
    rendering of the following counter value. *)
Theorem failed_start_skips_identifier module s name now e s' :
  has module name = true →
  start module name now s = (Throw e, s') →
  runList s' = runList s
  ∧ processes s' = processes s
  ∧ nextId s' = (nextId s + 1)%N
  ∧ (∀ name2 now2 id s2, start module name2 now2 s' = (Normal id, s2) →
       id = pretty (nextId s + 1)%N).
Proof.
  intros Hhas Hstart.
  destruct (start_cases module name now s)
    as [[Hno _]|[(_ & e' & Hst & _)|(_ & cmd & _ & _ & Hst)]];
    [congruence| |rewrite Hst in Hstart; done].
  set (s1 := (generateId s).2) in *.
  rewrite Hst in Hstart. assert (s' = s1) as -> by congruence.
  split; [done|]. split; [done|]. split; [done|].
  intros name2 now2 id s2 Hstart2.
  destruct (start_cases module name2 now2 s1)
    as [[_ Hst2]|[(_ & e2 & Hst2 & _)|(_ & cmd & _ & _ & Hst2)]];
    rewrite Hst2 in Hstart2; [done..|]. by injection Hstart2 as <- _.
Qed.

Lemma failed_start_skips_identifier_witness :
  runList (after faulty_module [Start "blank" 0]) = runList init
  ∧ processes (after faulty_module [Start "blank" 0]) = processes init
  ∧ nextId (after faulty_module [Start "blank" 0]) = (nextId init + 1)%N.
Proof.
  destruct (failed_start_skips_identifier faulty_module init "blank" 0
              (TypeError "file") (after faulty_module [Start "blank" 0]))
    as (Hruns & Hprocs & Hnext & _).
  - reflexivity.
  - vm_compute. reflexivity.
  - split; [exact Hruns|]. split; [exact Hprocs|exact Hnext].
Defined.

(** ** [cancel] *)

(** X3. [cancel] is idempotent: a second [cancel] on the same identifier
    gives the same completion and the same state as the first, whether the
    identifier is registered or not and whatever the state of its
    process. *)
Theorem cancel_idempotent id s :
  cancel id (cancel id s).2 = cancel id s.
Proof.
  unfold cancel. destruct (runList s !! id) as [r|] eqn:Hr; cbn.
  2: { by rewrite Hr. }
  unfold kill. destruct (processes s !! process r) as [proc|] eqn:Hp; cbn.
  2: { by rewrite Hr, Hp. }
  destruct (phase proc) eqn:Hph; cbn; rewrite ?Hr, ?Hp, ?Hph; try done.
  rewrite list_lookup_insert_eq by (eapply lookup_lt_Some; eauto). cbn.
  rewrite Hph. unfold with_processes. cbn.
  by rewrite list_insert_insert_eq.
Qed.

(** X4. [cancel] does not finish a run. On a registered run whose
    completion has not been notified, in a reachable state, [cancel]
    returns normally, leaves the registry and the counter as they are and
    spawns nothing; and [getStatus] still reports the run active, with the
    runtime of the time of the call. *)
Theorem cancel_leaves_run_active module s id r :
  reachable module s →
  runList s !! id = Some r →
  finished r = None →
  ∃ s', cancel id s = (Normal (), s')
    ∧ runList s' = runList s
    ∧ nextId s' = nextId s
    ∧ length (processes s') = length (processes s)
    ∧ ∀ now, getStatus id now s'
             = Normal {| st_suite := suite r; st_status := "active";
                         st_runtime := now - started r;
                         st_error := None; st_result := None |}.
Proof.
  intros Hreach Hr Hfin. pose proof (reachable_Inv module s Hreach) as HI.
  destruct (inv_process s HI _ _ Hr) as (proc & Hp & _).
  destruct (inv_outcome s HI _ _ Hr Hfin) as [Hres Herr].
  assert (Hst : ∀ s' now, runList s' = runList s →
            getStatus id now s'
            = Normal {| st_suite := suite r; st_status := "active";
                        st_runtime := now - started r;
                        st_error := None; st_result := None |}).
  { intros s' now Heq. unfold getStatus. rewrite Heq, Hr, Herr, Hres. done. }
  unfold cancel, kill. rewrite Hr, Hp.
  destruct (phase proc); eexists; (split; [done|]); cbn;
    rewrite ?length_insert; repeat (split; [done|]); intros now; by apply Hst.
Qed.

Lemma cancel_leaves_run_active_witness :
  ∃ s', cancel "1" (after unit_module [Start "unit" 0]) = (Normal (), s')
    ∧ runList s' = runList (after unit_module [Start "unit" 0])
    ∧ nextId s' = nextId (after unit_module [Start "unit" 0])
    ∧ length (processes s') = length (processes (after unit_module [Start "unit" 0]))
    ∧ ∀ now, getStatus "1" now s'
             = Normal {| st_suite := "unit"; st_status := "active";
                         st_runtime := now - 0;
                         st_error := None; st_result := None |}.
Proof.
  apply (cancel_leaves_run_active unit_module (after unit_module [Start "unit" 0]) "1"
           (registered "unit" 0 0)).
  - apply after_reachable.
  - vm_compute. reflexivity.
  - reflexivity.
Defined.

(** ** The status after the completion notification *)

(** The completion notification of a process, seen through [getStatus]:
    the record it leaves, and the process object. *)
Lemma close_state module s p proc err stdout stderr now :
  Inv s →
  processes s !! p = Some proc →
  phase proc ≠ Closed →
  ∃ r s',
    runList s !! callback proc = Some r ∧
    perform module (ProcessClose p err stdout stderr now) s
    = Some (CallbackDone (Normal ()), s') ∧
    runList s' !! callback proc
    = Some {| process := p; suite := suite r; started := started r;
              finished := Some now;
              result := (chosen_outcome module err stdout stderr).1;
              error := (chosen_outcome module err stdout stderr).2 |} ∧
    processes s' !! p = Some (set_phase Closed proc).
Proof.
  intros HI Hp Hph.
  destruct (close_effect module s p proc err stdout stderr now HI Hp Hph)
    as (r & s' & Hr & Hperf & Hr').
  destruct (inv_owner s HI _ _ Hp) as (r0 & Hr0 & Hown).
  assert (r0 = r) as -> by congruence. rewrite Hown in Hr'.
  exists r, s'. split; [done|]. split; [done|]. split; [done|].
  assert (Hlt : (p < length (processes s))%nat) by (eapply lookup_lt_Some; eauto).
  cbn in Hperf. rewrite Hp, decide_False in Hperf by done.
  unfold onComplete in Hperf. cbn in Hperf. rewrite Hr in Hperf.
  repeat case_match; simplify_eq; cbn; by rewrite list_lookup_insert_eq.
Qed.

(** X5. When the completion notification of a process records a truthy
    error (the reported error, the wrapped diagnostic output or the
    decoder's exception), every [getStatus] of the state it leaves answers
    with that error, with the runtime from the start to the notification,
    and with status cancelled if the process had been killed and error if
    not. *)
Theorem failure_status_by_killed module s p proc err stdout stderr now e :
  reachable module s →
  processes s !! p = Some proc →
  phase proc ≠ Closed →
  (chosen_outcome module err stdout stderr).2 = Some e →
  truthy e = true →
  ∃ r s',
    runList s !! callback proc = Some r ∧
    perform module (ProcessClose p err stdout stderr now) s
    = Some (CallbackDone (Normal ()), s') ∧
    ∀ now', getStatus (callback proc) now' s'
            = Normal {| st_suite := suite r;
                        st_status := if killed proc then "cancelled" else "error";
                        st_runtime := now - started r;
                        st_error := Some e; st_result := None |}.
Proof.
  intros Hreach Hp Hph He Htruthy.
  pose proof (reachable_Inv module s Hreach) as HI.
  destruct (close_state module s p proc err stdout stderr now HI Hp Hph)
    as (r & s' & Hr & Hperf & Hr' & Hp').
  exists r, s'. split; [done|]. split; [done|]. intros now'.
  unfold getStatus. rewrite Hr'. cbn. rewrite He. cbn. rewrite Htruthy, Hp'. done.
Qed.

Lemma failure_status_by_killed_witness :
  ∃ r s',
    runList (after unit_module [Start "unit" 0]) !! "1" = Some r ∧
    perform unit_module (ProcessClose 0 JsNull EmptyString "boom" 40)
      (after unit_module [Start "unit" 0])
    = Some (CallbackDone (Normal ()), s') ∧
    ∀ now', getStatus "1" now' s'
            = Normal {| st_suite := suite r; st_status := "error";
                        st_runtime := 40 - started r;
                        st_error := Some (JsError "boom"); st_result := None |}.
Proof.
  apply (failure_status_by_killed unit_module (after unit_module [Start "unit" 0]) 0
           (spawned {| command := "run-tests"; args := ["unit"] |} "1") JsNull EmptyString "boom" 40 (JsError "boom")).
  - apply after_reachable.
  - vm_compute. reflexivity.
  - discriminate.
  - reflexivity.
  - reflexivity.
Defined.

(** X6. When a process completes without error and the decoder returns a
    truthy value, every [getStatus] of the state the notification leaves
    answers completed with that value and the runtime from the start to
    the notification, also when the process had been killed by a
    [cancel]. *)
Theorem success_status_completed module s p proc err stdout stderr now v :
  reachable module s →
  processes s !! p = Some proc →
  phase proc ≠ Closed →
  chosen_outcome module err stdout stderr = (Some v, None) →
  truthy v = true →
  ∃ r s',
    runList s !! callback proc = Some r ∧
    perform module (ProcessClose p err stdout stderr now) s
    = Some (CallbackDone (Normal ()), s') ∧
    ∀ now', getStatus (callback proc) now' s'
            = Normal {| st_suite := suite r; st_status := "completed";
                        st_runtime := now - started r;
                        st_error := None; st_result := Some v |}.
Proof.
  intros Hreach Hp Hph Hv Htruthy.
  pose proof (reachable_Inv module s Hreach) as HI.
  destruct (close_state module s p proc err stdout stderr now HI Hp Hph)
    as (r & s' & Hr & Hperf & Hr' & Hp').
  exists r, s'. split; [done|]. split; [done|]. intros now'.
  unfold getStatus. rewrite Hr'. cbn. rewrite Hv. cbn. rewrite Htruthy. done.
Qed.

Lemma success_status_completed_witness :
  ∃ r s',
    runList (after unit_module [Start "unit" 0; Cancel "1"]) !! "1" = Some r ∧
    perform unit_module (ProcessClose 0 JsNull "ok" EmptyString 40)
      (after unit_module [Start "unit" 0; Cancel "1"])
    = Some (CallbackDone (Normal ()), s') ∧
    ∀ now', getStatus "1" now' s'
            = Normal {| st_suite := suite r; st_status := "completed";
                        st_runtime := 40 - started r;
                        st_error := None;
                        st_result := Some (JsObject [("passed", JsNumber 3);
                                                     ("failed", JsNumber 0)]) |}.
Proof.
  apply (success_status_completed unit_module
           (after unit_module [Start "unit" 0; Cancel "1"]) 0
           (set_killed (spawned {| command := "run-tests"; args := ["unit"] |} "1")) JsNull "ok" EmptyString 40).
  - apply after_reachable.
  - vm_compute. reflexivity.
  - discriminate.
  - reflexivity.
  - reflexivity.
Defined.

(** X7. A run cancelled while its process is running, whose completion is
    then notified with a truthy error, is reported cancelled: [cancel]
    returns normally, the notification is delivered, and every later
    [getStatus] answers cancelled with that error and the runtime from the
    start to the notification. *)
Theorem cancelled_run_reports_cancelled module s id r proc err stdout stderr now e :
  reachable module s →
  runList s !! id = Some r →
  processes s !! process r = Some proc →
  phase proc = Running →
  (chosen_outcome module err stdout stderr).2 = Some e →
  truthy e = true →
  ∃ s1 s2,
    cancel id s = (Normal (), s1) ∧
    perform module (ProcessClose (process r) err stdout stderr now) s1
    = Some (CallbackDone (Normal ()), s2) ∧
    ∀ now', getStatus id now' s2
            = Normal {| st_suite := suite r; st_status := "cancelled";
                        st_runtime := now - started r;
                        st_error := Some e; st_result := None |}.
Proof.
  intros Hreach Hr Hp Hph He Htruthy.
  pose proof (reachable_Inv module s Hreach) as HI.
  destruct (inv_process s HI _ _ Hr) as (proc0 & Hp0 & Hcb).
  assert (proc0 = proc) as -> by congruence.
  pose proof (cancel_Inv id s HI) as HI1.
  unfold cancel, kill in *. rewrite Hr, Hp, Hph in *. cbn in HI1.
  set (s1 := with_processes <[process r := set_killed proc]> s) in *.
  assert (Hp1 : processes s1 !! process r = Some (set_killed proc)).
  { cbn. apply list_lookup_insert_eq. eapply lookup_lt_Some; eauto. }
  destruct (close_state module s1 (process r) (set_killed proc) err stdout stderr now
              HI1 Hp1) as (r1 & s2 & Hr1 & Hperf & Hr2 & Hp2).
  { cbn. congruence. }
  cbn in Hr1, Hr2. rewrite Hcb in Hr1, Hr2.
  assert (r1 = r) as -> by congruence.
  exists s1, s2. split; [done|]. split; [done|]. intros now'.
  unfold getStatus. rewrite Hr2. cbn. rewrite He. cbn. rewrite Htruthy, Hp2. done.
Qed.

Lemma cancelled_run_reports_cancelled_witness :
  ∃ s1 s2,
    cancel "1" (after unit_module [Start "unit" 0]) = (Normal (), s1) ∧
    perform unit_module (ProcessClose 0 (JsError "Command failed") EmptyString
                           EmptyString 40) s1
    = Some (CallbackDone (Normal ()), s2) ∧
    ∀ now', getStatus "1" now' s2
            = Normal {| st_suite := "unit"; st_status := "cancelled";
                        st_runtime := 40 - 0;
                        st_error := Some (JsError "Command failed");
                        st_result := None |}.
Proof.
  apply (cancelled_run_reports_cancelled unit_module (after unit_module [Start "unit" 0])
           "1" (registered "unit" 0 0) (spawned {| command := "run-tests"; args := ["unit"] |} "1")
           (JsError "Command failed") EmptyString EmptyString 40
           (JsError "Command failed")).
  - apply after_reachable.
  - vm_compute. reflexivity.
  - vm_compute. reflexivity.
  - reflexivity.
  - reflexivity.
  - reflexivity.
Defined.

(** ** The registered identifiers *)

Section Issued.

Variable module : TestModule.

(** An event registers the identifier it returns, and nothing else. *)
Lemma perform_registers e s r s' id :
  Inv s →
  perform module e s = Some (r, s') →
  is_Some (runList s' !! id) ↔ is_Some (runList s !! id) ∨ id ∈ returned_ids [r].
Proof.
  intros HI.
  assert (Hnone : ∀ P : Prop, P ↔ P ∨ id ∈ @nil string).
  { intros P. rewrite elem_of_nil. tauto. }
  destruct e as [name now|id' now|id'|p|p err out errout now]; cbn.
  - destruct (start_cases module name now s)
      as [[_ ->]|[(_ & e & -> & _)|(_ & cmd & _ & _ & ->)]];
      intros [= <- <-]; cbn; [apply Hnone..|].
    rewrite lookup_insert, list_elem_of_singleton. case_decide as Hid.
    + subst id. split; [by right|by eexists].
    + split; [by left|]. intros [?|?]; [done|congruence].
  - intros [= <- <-]. apply Hnone.
  - unfold cancel, kill. destruct (runList s !! id') as [r2|]; cbn.
    2: { intros [= <- <-]. apply Hnone. }
    destruct (processes s !! process r2) as [proc|]; cbn.
    2: { intros [= <- <-]. apply Hnone. }
    destruct (phase proc); intros [= <- <-]; apply Hnone.
  - destruct (processes s !! p) as [proc|]; [|done].
    case_decide; [|done]. intros [= <- <-]. apply Hnone.
  - destruct (processes s !! p) as [proc|] eqn:Hp; [|done].
    case_decide; [done|]. unfold onComplete. cbn.
    destruct (inv_owner s HI _ _ Hp) as (r2 & Hr2 & _). rewrite Hr2.
    assert (Hsame : ∀ r', is_Some (<[callback proc := r']> (runList s) !! id)
                          ↔ is_Some (runList s !! id)).
    { intros r'. rewrite lookup_insert. case_decide as Hid; [|done].
      subst id. rewrite Hr2. split; by eexists. }
    repeat case_match; intros [= <- <-]; simplify_eq; cbn;
      rewrite Hsame; apply Hnone.
Qed.

Lemma run_trace_registers tr s rs s' id :
  Inv s →
  run_trace module tr s = Some (rs, s') →
  is_Some (runList s' !! id) ↔ is_Some (runList s !! id) ∨ id ∈ returned_ids rs.
Proof.
  revert s rs. induction tr as [|e tr IH]; intros s rs HI.
  - cbn. intros [= <- <-]. cbn. rewrite elem_of_nil. tauto.
  - cbn [run_trace].
    destruct (perform module e s) as [[r s1]|] eqn:He; [|done].
    destruct (run_trace module tr s1) as [[rs1 s2]|] eqn:Htr; [|done].
    intros [= <- <-].
    rewrite (IH s1 rs1) by (eauto using perform_Inv).
    rewrite (perform_registers e s r s1 id HI He).
    rewrite (returned_ids_cons r rs1), elem_of_app. tauto.
Qed.

End Issued.

(** X8. After any trace of an initially empty dispatcher, the registered
    identifiers are exactly those that its [start] calls returned: for no
    one else does [getStatus] or [cancel] find a run, and none of them is
    ever lost. *)
Theorem registered_ids_are_returned_ids module tr rs s :
  run_trace module tr init = Some (rs, s) →
  ∀ id, is_Some (runList s !! id) ↔ id ∈ returned_ids rs.
Proof.
  intros Htr id.
  rewrite (run_trace_registers module tr init rs s id Inv_init Htr).
  cbn. rewrite lookup_empty. split; [|by right].
  intros [[r Hr]|Hin]; done.
Qed.

Lemma registered_ids_are_returned_ids_witness :
  is_Some (runList (after unit_module [Start "unit" 0; Start "missing" 5;
                                       Start "unit" 9]) !! "2")
  ↔ "2" ∈ ["1"; "2"].
Proof.
  apply (registered_ids_are_returned_ids unit_module
           [Start "unit" 0; Start "missing" 5; Start "unit" 9]
           [Started (Normal "1"); Started (Throw (NotFound "missing"));
            Started (Normal "2")]).
  vm_compute. reflexivity.
Defined.

(** ** Runs and their processes *)

Section Ownership.

Variable module : TestModule.

Lemma processes_count s :
  reachable module s → length (processes s) = size (runList s).
Proof.
  unfold reachable. intros Hreach. pattern s.
  apply (rtc_ind_r (R := step module) _ init); [| |exact Hreach]; clear s Hreach.
  - done.
  - intros s1 s2 Hreach (e & resp & He) IH.
    pose proof (reachable_Inv module s1 Hreach) as HI.
    destruct e as [name now|id now|id|p|p err out errout now]; cbn in He.
    + destruct (start_cases module name now s1)
        as [[_ Hst]|[(_ & e & Hst & _)|(_ & cmd & _ & _ & Hst)]];
        rewrite Hst in He; injection He as <- <-; [done..|]. cbn.
      rewrite length_app, map_size_insert_None by (by apply Inv_fresh). cbn. lia.
    + by injection He as <- <-.
    + unfold cancel, kill in He.
      destruct (runList s1 !! id) as [r|]; cbn in He; [|by injection He as <- <-].
      destruct (processes s1 !! process r) as [proc|]; cbn in He;
        [|by injection He as <- <-].
      destruct (phase proc); injection He as <- <-; cbn; by rewrite ?length_insert.
    + destruct (processes s1 !! p) as [proc|]; [|done].
      case_decide; [|done]. injection He as <- <-. cbn. by rewrite length_insert.
    + destruct (processes s1 !! p) as [proc|] eqn:Hp; [|done].
      case_decide; [done|]. unfold onComplete in He. cbn in He.
      destruct (inv_owner s1 HI _ _ Hp) as (r & Hr & _). rewrite Hr in He.
      repeat case_match; simplify_eq; cbn;
        by rewrite length_insert, map_size_insert_Some.
Qed.

(** An event that acts on another run leaves the record of a run and its
    process object as they are. *)
Lemma perform_frame e s resp s' id r proc :
  Inv s →
  runList s !! id = Some r →
  processes s !! process r = Some proc →
  target e s ≠ Some id →
  perform module e s = Some (resp, s') →
  runList s' !! id = Some r ∧ processes s' !! process r = Some proc.
Proof.
  intros HI Hr Hp Htarget.
  destruct (inv_process s HI _ _ Hr) as (proc0 & Hp0 & Hcb).
  assert (proc0 = proc) as -> by congruence.
  assert (Hlt : (process r < length (processes s))%nat)
    by (eapply lookup_lt_Some; eauto).
  destruct e as [name now|id' now|id'|p|p err out errout now]; cbn in *.
  - destruct (start_cases module name now s)
      as [[_ ->]|[(_ & e & -> & _)|(_ & cmd & _ & _ & ->)]];
      intros [= <- <-]; [done..|]. cbn.
    split; [|by rewrite lookup_app_l].
    rewrite lookup_insert_ne; [done|].
    intros Heq. pose proof (Inv_fresh s HI). congruence.
  - intros [= <- <-]. done.
  - unfold cancel, kill. destruct (runList s !! id') as [r2|] eqn:Hr2; cbn.
    2: { intros [= <- <-]. done. }
    destruct (inv_process s HI _ _ Hr2) as (proc2 & Hp2 & Hcb2). rewrite Hp2.
    destruct (phase proc2); intros [= <- <-]; cbn; try done.
    split; [done|]. rewrite list_lookup_insert_ne; [done|].
    intros Heq. rewrite Heq in Hp2. congruence.
  - destruct (processes s !! p) as [proc2|] eqn:Hp2; [|done].
    case_decide; [|done]. intros [= <- <-]. cbn.
    split; [done|]. rewrite list_lookup_insert_ne; [done|].
    intros ->. cbn in Htarget. congruence.
  - destruct (processes s !! p) as [proc2|] eqn:Hp2; [|done].
    case_decide; [done|]. cbn in Htarget.
    assert (Hid : callback proc2 ≠ id) by congruence.
    assert (Hne : p ≠ process r) by (intros ->; congruence).
    destruct (inv_owner s HI _ _ Hp2) as (r2 & Hr2 & _).
    unfold onComplete. cbn. rewrite Hr2.
    repeat case_match; intros [= <- <-]; simplify_eq; cbn;
      by rewrite lookup_insert_ne, list_lookup_insert_ne.
Qed.

End Ownership.

(** X9. In every reachable state there are as many processes as runs;
    two runs never hold the same process; and every process is held by
    the run whose identifier its callback captured. So a [cancel] kills,
    and a completion notification finishes, one run only. *)
Theorem one_process_per_run module s :
  reachable module s →
  length (processes s) = size (runList s)
  ∧ (∀ id1 id2 r1 r2, runList s !! id1 = Some r1 → runList s !! id2 = Some r2 →
       process r1 = process r2 → id1 = id2)
  ∧ (∀ p proc, processes s !! p = Some proc →
       ∃ r, runList s !! callback proc = Some r ∧ process r = p).
Proof.
  intros Hreach. pose proof (reachable_Inv module s Hreach) as HI.
  split; [by apply (processes_count module)|]. split.
  - intros id1 id2 r1 r2 H1 H2 Heq.
    destruct (inv_process s HI _ _ H1) as (p1 & Hp1 & <-).
    destruct (inv_process s HI _ _ H2) as (p2 & Hp2 & <-).
    rewrite Heq in Hp1. congruence.
  - by apply inv_owner.
Qed.

Lemma one_process_per_run_witness :
  length (processes (after unit_module [Start "unit" 0; Start "unit" 3; Cancel "1"]))
  = size (runList (after unit_module [Start "unit" 0; Start "unit" 3; Cancel "1"])).
Proof.
  apply (one_process_per_run unit_module
           (after unit_module [Start "unit" 0; Start "unit" 3; Cancel "1"])).
  apply after_reachable.
Defined.

(** X10. Runs do not interfere. An event that acts on another run (a
    [cancel] of another identifier, the exit or the completion of another
    run's process), a [start] or a [getStatus] leaves the answer of
    [getStatus] on a registered run, at any given time, as it was. *)
Theorem other_runs_unaffected module e s resp s' id :
  reachable module s →
  is_Some (runList s !! id) →
  target e s ≠ Some id →
  perform module e s = Some (resp, s') →
  ∀ now, getStatus id now s' = getStatus id now s.
Proof.
  intros Hreach [r Hr] Htarget He now.
  pose proof (reachable_Inv module s Hreach) as HI.
  destruct (inv_process s HI _ _ Hr) as (proc & Hp & _).
  destruct (perform_frame module e s resp s' id r proc HI Hr Hp Htarget He)
    as [Hr' Hp'].
  unfold getStatus. by rewrite Hr, Hr', Hp, Hp'.
Qed.

Lemma other_runs_unaffected_witness :
  getStatus "1" 20
    (after unit_module [Start "unit" 0; Start "unit" 3; Cancel "2";
                        ProcessClose 1 (JsError "Command failed") EmptyString
                          EmptyString 9])
  = getStatus "1" 20 (after unit_module [Start "unit" 0; Start "unit" 3; Cancel "2"]).
Proof.
  apply (other_runs_unaffected unit_module
           (ProcessClose 1 (JsError "Command failed") EmptyString EmptyString 9)
           (after unit_module [Start "unit" 0; Start "unit" 3; Cancel "2"])
           (CallbackDone (Normal ()))).
  - apply after_reachable.
  - vm_compute. eexists. reflexivity.
  - vm_compute. discriminate.
  - vm_compute. reflexivity.
Defined.

(** ** Output on both channels *)

(** X11. Diagnostic output does not matter when there is standard output,
    or when the platform reports an error: the completion notification
    then has the same effect whatever the diagnostic output is. *)
Theorem diagnostics_ignored module p err stdout stderr1 stderr2 now s :
  truthy err = true ∨ nonempty stdout = true →
  perform module (ProcessClose p err stdout stderr1 now) s
  = perform module (ProcessClose p err stdout stderr2 now) s.
Proof.
  intros Hcase. cbn. destruct (processes s !! p) as [proc|]; [|done].
  case_decide; [done|]. unfold onComplete. cbn.
  destruct (runList s !! callback proc) as [r|]; [|done].
  destruct (truthy err); [done|].
  destruct Hcase as [|Hout]; [done|]. by rewrite Hout.
Qed.

Lemma diagnostics_ignored_witness :
  perform unit_module (ProcessClose 0 JsNull "ok" "warning: slow" 40)
    (after unit_module [Start "unit" 0])
  = perform unit_module (ProcessClose 0 JsNull "ok" EmptyString 40)
      (after unit_module [Start "unit" 0]).
Proof.
  apply (diagnostics_ignored unit_module 0 JsNull "ok" "warning: slow" EmptyString 40
           (after unit_module [Start "unit" 0])).
  right. reflexivity.
Defined.

(** ** The class [LocalRun] and [getStatus] *)

(** X12. On every registered run of a reachable state that is not
    finished, or whose error or result is truthy, the methods of
    [LocalRun] give what [getStatus] answers: the same status, the same
    runtime and the same suite. *)
Theorem LocalRun_agrees_with_getStatus module s id r now :
  reachable module s →
  runList s !! id = Some r →
  finished r = None ∨ is_set (error r) = true ∨ is_set (result r) = true →
  ∃ st, getStatus id now s = Normal st
        ∧ LocalRun.toStatus r s = Normal (st_status st)
        ∧ LocalRun.toRuntime now r = st_runtime st
        ∧ LocalRun.toSuiteName r = st_suite st.
Proof.
  intros Hreach Hr Hcase. pose proof (reachable_Inv module s Hreach) as HI.
  destruct (inv_process s HI _ _ Hr) as (proc & Hp & _).
  unfold getStatus, LocalRun.toStatus, LocalRun.toRuntime, LocalRun.toSuiteName.
  rewrite Hr, Hp. cbn.
  destruct Hcase as [Hfin|[Herr|Hres]].
  - destruct (inv_outcome s HI _ _ Hr Hfin) as [-> ->]. rewrite Hfin. cbn.
    by eexists.
  - destruct (Inv_outcome_finished s id r HI Hr (or_introl Herr)) as [t Hfin].
    rewrite Herr, Hfin. cbn.
    destruct (inv_exclusive s HI _ _ Hr) as [Hnone|Hnone].
    + rewrite Hnone. cbn. by eexists.
    + rewrite Hnone in Herr. done.
  - destruct (Inv_outcome_finished s id r HI Hr (or_intror Hres)) as [t Hfin].
    destruct (inv_exclusive s HI _ _ Hr) as [Hnone|Hnone].
    + rewrite Hnone in Hres. done.
    + rewrite Hnone, Hres, Hfin. cbn. by eexists.
Qed.

Lemma LocalRun_agrees_with_getStatus_witness :
  ∃ st, getStatus "1" 70 (after unit_module failed_trace) = Normal st
        ∧ LocalRun.toStatus
            {| process := 0; suite := "unit"; started := 0; finished := Some 40;
               result := None; error := Some (JsError "Command failed") |}
            (after unit_module failed_trace)
          = Normal (st_status st)
        ∧ LocalRun.toRuntime 70
            {| process := 0; suite := "unit"; started := 0; finished := Some 40;
               result := None; error := Some (JsError "Command failed") |}
          = st_runtime st
        ∧ LocalRun.toSuiteName
            {| process := 0; suite := "unit"; started := 0; finished := Some 40;
               result := None; error := Some (JsError "Command failed") |}
          = st_suite st.
Proof.
  apply (LocalRun_agrees_with_getStatus unit_module (after unit_module failed_trace) "1").
  - apply after_reachable.
  - vm_compute. reflexivity.
  - right. left. reflexivity.
Defined.

(** X13. A [LocalRun] that has been completed or failed is never reported
    active, whatever the value given, and its runtime no longer depends on
    the clock: it is the time from the start to the call of [complete] or
    [fail]. Completed with a truthy result, it is reported completed. *)
Theorem LocalRun_finished_is_terminal r v e t now s :
  LocalRun.toStatus (LocalRun.complete v t r) s ≠ Normal "active"
  ∧ LocalRun.toStatus (LocalRun.fail e t r) s ≠ Normal "active"
  ∧ LocalRun.toRuntime now (LocalRun.complete v t r) = t - started r
  ∧ LocalRun.toRuntime now (LocalRun.fail e t r) = t - started r
  ∧ (truthy v = true →
       LocalRun.toStatus (LocalRun.complete v t r) s = Normal "completed").
Proof.
  unfold LocalRun.toStatus, LocalRun.toRuntime, LocalRun.complete, LocalRun.fail,
    LocalRun.finish. cbn.
  split; [|split; [|split; [done|split; [done|]]]].
  - destruct (truthy v); [done|].
    destruct (processes s !! process r) as [proc|]; cbn; [|done].
    by destruct (killed proc).
  - destruct (is_set (result r)); [done|].
    destruct (processes s !! process r) as [proc|]; cbn; [|done].
    by destruct (killed proc).
  - by intros ->.
Qed.

Lemma LocalRun_finished_is_terminal_witness :
  LocalRun.toStatus (LocalRun.complete (JsNumber 3) 40 (LocalRun.make "unit" 0 0)) init
  = Normal "completed".
Proof.
  apply (LocalRun_finished_is_terminal (LocalRun.make "unit" 0 0) (JsNumber 3) JsNull
           40 0 init).
  reflexivity.
Defined.
